(** * The postimg preview proxy: [src/app/api/postimg/route.ts] in its two
    versions, the strict one (JSON errors, 8 s timeout) and the
    always-an-image one (SVG placeholders, retry, 24 h cache).

    Strings are sequences of 8-bit characters (the UTF-8 bytes of the
    JavaScript string).  The three string operations the handlers rely on
    are insensitive to that choice: the regular expressions only name ASCII
    characters, and no non-ASCII character lower-cases to one of the letters
    of the word looked for by [isAbortLikeError]. *)

From Stdlib Require Import Ascii String ZArith Lia Bool.
From stdpp Require Import gmap strings.

Local Open Scope Z_scope.
Local Open Scope nat_scope.

(* appends of literals reduce under [simpl] *)
#[local] Arguments String.append !s1 s2 : simpl nomatch.

(** ** Characters and strings *)

Module Str.

(** ASCII lower-casing, the part of [String.prototype.toLowerCase] that
    matters for ASCII needles. *)
Definition lower (c : ascii) : ascii :=
  let n := nat_of_ascii c in
  if (65 <=? n) && (n <=? 90) then ascii_of_nat (n + 32) else c.

Fixpoint toLowerCase (s : string) : string :=
  match s with
  | EmptyString => EmptyString
  | String c s' => String (lower c) (toLowerCase s')
  end.

(** [startsWith p s]: [p] is a prefix of [s]. *)
Fixpoint startsWith (p s : string) : bool :=
  match p, s with
  | EmptyString, _ => true
  | String a p', String b s' => Ascii.eqb a b && startsWith p' s'
  | String _ _, EmptyString => false
  end.

(** [includes needle s]: [String.prototype.includes]. *)
Fixpoint includes (needle s : string) : bool :=
  startsWith needle s
  || match s with
     | EmptyString => false
     | String _ s' => includes needle s'
     end.

(** JavaScript truthiness of a string: only the empty string is falsy. *)
Definition truthy (s : string) : bool :=
  match s with EmptyString => false | String _ _ => true end.

Definition dquote : ascii := "034"%char.
Definition squote : ascii := "039"%char.
Definition gt : ascii := "062"%char.

Definition is_quote (c : ascii) : bool :=
  Ascii.eqb c dquote || Ascii.eqb c squote.

Definition not_quote (c : ascii) : bool := negb (is_quote c).
Definition not_gt (c : ascii) : bool := negb (Ascii.eqb c gt).

(** Every character of [s] satisfies [p]. *)
Fixpoint all (p : ascii -> bool) (s : string) : bool :=
  match s with
  | EmptyString => true
  | String c s' => p c && all p s'
  end.

(** Equality up to ASCII letter case. *)
Fixpoint eq_ci (a b : string) : bool :=
  match a, b with
  | EmptyString, EmptyString => true
  | String x a', String y b' => Ascii.eqb (lower x) (lower y) && eq_ci a' b'
  | _, _ => false
  end.

End Str.

(** ** The two regular expressions of [extractOgImage]

    A backtracking matcher in continuation-passing style, one combinator per
    construct the two patterns use.  A continuation receives the rest of the
    input and returns the final capture, or [None] to make the matcher
    backtrack. *)

Module Re.

Definition K := string -> option string.

(** A literal under the [i] flag. *)
Fixpoint lit_ci (l : string) (k : K) (s : string) : option string :=
  match l with
  | EmptyString => k s
  | String a l' =>
      match s with
      | String b s' =>
          if Ascii.eqb (Str.lower a) (Str.lower b) then lit_ci l' k s' else None
      | EmptyString => None
      end
  end.

(** The class of the two quote characters, double and single. *)
Definition quote (k : K) (s : string) : option string :=
  match s with
  | String c s' => if Str.is_quote c then k s' else None
  | EmptyString => None
  end.

(** A greedy repetition of the class [p]: the longest run is tried first,
    and each failure of the continuation gives one character back.  The
    continuation also receives the text consumed so far. *)
Fixpoint greedy (p : ascii -> bool) (k : string -> K) (taken s : string)
  : option string :=
  match s with
  | String c s' =>
      if p c then
        match greedy p k (taken +:+ String c EmptyString) s' with
        | Some r => Some r
        | None => k taken s
        end
      else k taken s
  | EmptyString => k taken s
  end.

(** [[^>]*] *)
Definition star_not_gt (k : K) (s : string) : option string :=
  greedy Str.not_gt (fun _ => k) EmptyString s.

(** The capture group: one or more characters other than a quote, greedy,
    followed by [k]; the capture is handed to [k]. *)
Definition plus_not_quote (k : string -> K) (s : string) : option string :=
  greedy Str.not_quote
    (fun cap => if Str.truthy cap then k cap else fun _ => None)
    EmptyString s.

(** The content attribute as both patterns spell it: content= Q ( [^Q]+ ) Q,
    with Q either quote; the capture is handed to [k]. *)
Definition content_attr (k : string -> K) : K :=
  lit_ci "content=" (quote (plus_not_quote (fun cap => quote (k cap)))).

(** The property attribute: property= Q og:image Q. *)
Definition property_attr (k : K) : K :=
  lit_ci "property=" (quote (lit_ci "og:image" (quote k))).

(** The first pattern of [extractOgImage], anchored at the start of [s]:
    the property attribute, [^>]*, the content attribute, under the flag
    [i]; the result is capture group 1. *)
Definition property_first (s : string) : option string :=
  property_attr (star_not_gt (content_attr (fun cap _ => Some cap))) s.

(** The second pattern, anchored at the start of [s]: the content
    attribute, [^>]*, the property attribute. *)
Definition content_first (s : string) : option string :=
  content_attr (fun cap => star_not_gt (property_attr (fun _ => Some cap))) s.

(** [String.prototype.match] without the [g] flag: the match at the
    leftmost start position. *)
Fixpoint search (m : string -> option string) (s : string) : option string :=
  match m s with
  | Some r => Some r
  | None =>
      match s with
      | String _ s' => search m s'
      | EmptyString => None
      end
  end.

End Re.

(** [extractOgImage(html)]: [None] is [null]. *)
Definition extractOgImage (html : string) : option string :=
  match Re.search Re.property_first html with
  | Some img => Some img
  | None => Re.search Re.content_first html
  end.

(** ** Thrown values and [isAbortLikeError] *)

(** The shape [isAbortLikeError] casts its argument to. *)
Record ErrCause := {
  cause_code : option string;
  cause_name : option string;
  cause_message : option string
}.

Record ErrObj := {
  err_name : option string;
  err_message : option string;
  err_code : option string;
  err_cause : option ErrCause
}.

(** A caught value is [unknown]: a falsy value or an object. *)
Inductive Thrown :=
| Falsy
| Obj (e : ErrObj).

(** [field === lit], false when the field is absent. *)
Definition is_str (field : option string) (lit : string) : bool :=
  match field with
  | Some v => String.eqb v lit
  | None => false
  end.

(** [message?.toLowerCase().includes(lit) === true] *)
Definition lower_includes (message : option string) (lit : string) : bool :=
  match message with
  | Some m => Str.includes lit (Str.toLowerCase m)
  | None => false
  end.

Definition cause_field (e : ErrObj) (f : ErrCause -> option string) : option string :=
  match err_cause e with
  | Some c => f c
  | None => None
  end.

Definition isAbortLikeError (err : Thrown) : bool :=
  match err with
  | Falsy => false
  | Obj anyErr =>
      is_str (err_name anyErr) "AbortError"
      || is_str (err_code anyErr) "ECONNRESET"
      || is_str (err_code anyErr) "UND_ERR_ABORTED"
      || lower_includes (err_message anyErr) "aborted"
      || is_str (cause_field anyErr cause_code) "ECONNRESET"
      || is_str (cause_field anyErr cause_code) "UND_ERR_ABORTED"
      || is_str (cause_field anyErr cause_name) "AbortError"
      || lower_includes (cause_field anyErr cause_message) "aborted"
  end.

(** ** Responses *)

Inductive Response :=
| Json (status : nat) (error : string)
    (** [NextResponse.json({ error }, { status })] *)
| NoBody (status : nat)
    (** [new NextResponse(null, { status })] *)
| Redirect (status : nat) (location : string)
    (** [NextResponse.redirect(url, status)] *)
| Image (status : nat) (content_type cache_control body : string).
    (** [new NextResponse(body, { status, headers })] *)

Definition status_of (r : Response) : nat :=
  match r with
  | Json st _ | NoBody st | Redirect st _ | Image st _ _ _ => st
  end.

Definition nl : string := String "010"%char EmptyString.
Definition q (s : string) : string :=
  String Str.dquote s +:+ String Str.dquote EmptyString.

Definition svgPlaceholder (label : string) : string :=
  "<?xml version=" +:+ q "1.0" +:+ " encoding=" +:+ q "UTF-8" +:+ "?>" +:+ nl +:+
  "<svg xmlns=" +:+ q "http://www.w3.org/2000/svg" +:+ " width=" +:+ q "1200"
    +:+ " height=" +:+ q "700" +:+ ">" +:+ nl +:+
  "  <rect width=" +:+ q "100%" +:+ " height=" +:+ q "100%" +:+ " fill="
    +:+ q "#0b1220" +:+ "/>" +:+ nl +:+
  "  <text x=" +:+ q "50%" +:+ " y=" +:+ q "50%" +:+ " fill=" +:+ q "#67e8f9"
    +:+ " font-family=" +:+ q "Arial" +:+ " font-size=" +:+ q "28"
    +:+ " text-anchor=" +:+ q "middle" +:+ ">" +:+ label +:+ "</text>" +:+ nl +:+
  "</svg>".

Definition imageFallbackResponse (label : string) : Response :=
  Image 200 "image/svg+xml; charset=utf-8" "public, max-age=300"
        (svgPlaceholder label).

(** ** The world a request runs in

    Time is counted in milliseconds from the entry into the handler.  An
    asynchronous operation is described by what it would do if left alone
    (settle after a latency, or never), and the abort signal handed to it
    cuts it short. *)

Definition ms := N.
Bind Scope N_scope with ms.

(** [res.text()] *)
Inductive BodyBehaviour :=
| BodyText (latency : ms) (text : string)
| BodyFails (latency : ms) (err : Thrown)
| BodyStalls.

(** [fetch(...)] *)
Inductive FetchBehaviour :=
| Responds (latency : ms) (ok : bool) (body : BodyBehaviour)
| Fails (latency : ms) (err : Thrown)
| Stalls.

Record World := {
  upstream : nat -> FetchBehaviour;  (** the n-th outbound call, from 0 *)
  date_now : ms -> Z                 (** [Date.now()] read at a given time *)
}.

Record Request := {
  req_url : option string;     (** [req.nextUrl.searchParams.get("url")] *)
  req_abort_at : option ms     (** when [req.signal] fires; [Some 0]: already
                                   aborted on arrival; [None]: never *)
}.

Definition aborted_on_arrival (req : Request) : bool :=
  match req_abort_at req with
  | Some 0%N => true
  | _ => false
  end.

(** A promise on the time line. *)
Inductive Settled (A : Type) :=
| Fulfilled (at_ : ms) (value : A)
| Rejected (at_ : ms) (err : Thrown)
| Unsettled.
Arguments Fulfilled {A}.
Arguments Rejected {A}.
Arguments Unsettled {A}.

(** What a fetch or a body read rejects with once its signal has fired. *)
Definition AbortError : Thrown :=
  Obj {| err_name := Some "AbortError";
         err_message := Some "This operation was aborted";
         err_code := None;
         err_cause := None |}.

(** An operation started at [start] under an [AbortSignal] firing at
    [signal]: it settles on its own only strictly before the signal. *)
Definition under_signal {A} (signal : option ms) (start : ms)
    (alone : Settled A) : Settled A :=
  match signal with
  | None => alone
  | Some a =>
      if (a <=? start)%N then Rejected start AbortError
      else match alone with
           | Fulfilled t _ | Rejected t _ =>
               if (t <? a)%N then alone else Rejected a AbortError
           | Unsettled => Rejected a AbortError
           end
  end.

Definition fetch (w : World) (signal : option ms) (n : nat) (start : ms)
  : Settled (bool * BodyBehaviour) :=
  under_signal signal start
    match upstream w n with
    | Responds lat ok body => Fulfilled (start + lat)%N (ok, body)
    | Fails lat err => Rejected (start + lat)%N err
    | Stalls => Unsettled
    end.

Definition text (signal : option ms) (body : BodyBehaviour) (start : ms)
  : Settled string :=
  under_signal signal start
    match body with
    | BodyText lat html => Fulfilled (start + lat)%N html
    | BodyFails lat err => Rejected (start + lat)%N err
    | BodyStalls => Unsettled
    end.

(** The earlier of two signals. *)
Definition earliest (a b : option ms) : option ms :=
  match a, b with
  | Some x, Some y => Some (N.min x y)
  | Some x, None => Some x
  | None, _ => b
  end.

(** One outbound call as the handler sees it: started, and over (rejected, or
    answered and its body read or left) at [call_over]; [None]: never. *)
Record Call := {
  call_url : string;
  call_start : ms;
  call_over : option ms
}.

Definition pending_at (c : Call) (t : ms) : Prop :=
  (call_start c <= t)%N /\
  match call_over c with
  | Some e => (t < e)%N
  | None => True
  end.

(** How a handler invocation ends. *)
Inductive Outcome :=
| Returns (at_ : ms) (r : Response)
| Throws (at_ : ms) (err : Thrown)
| Never.

(** ** The platform: the WHATWG URL parser

    [new URL(s)] is not code of the repository; the handlers are stated over
    any parser.  [url_parse s = None] stands for the [TypeError] thrown on a
    string that is not an absolute URL, which the empty string never is. *)

Record URL := {
  hostname : string;
  href : string            (** what [toString()] returns *)
}.

Class Platform := {
  url_parse : string -> option URL;
  url_parse_empty : url_parse EmptyString = None;
  (** the error [NextResponse.redirect] throws for a malformed target *)
  redirect_error : string -> ErrObj
}.

(** The call every attempt makes: a GET of [parsed.toString()]. *)
Definition call_to (parsed : URL) (start : ms) (over : option ms) : Call :=
  {| call_url := href parsed; call_start := start; call_over := over |}.

(** [NextResponse.redirect(url, status)] sets the Location header to
    [String(new URL(String(url)))] and throws when that constructor does. *)
Definition NextResponse_redirect `{Platform} (url : string) (status : nat)
  : Response + Thrown :=
  match url_parse url with
  | Some u => inl (Redirect status (href u))
  | None => inr (Obj (redirect_error url))
  end.

(** [Promise.race([a, b])]: the first to settle; [a] on a tie. *)
Definition race (a b : Settled Response) : Outcome :=
  let settle (p : Settled Response) : Outcome :=
    match p with
    | Fulfilled t r => Returns t r
    | Rejected t e => Throws t e
    | Unsettled => Never
    end in
  let time (p : Settled Response) : option ms :=
    match p with
    | Fulfilled t _ | Rejected t _ => Some t
    | Unsettled => None
    end in
  match time a, time b with
  | Some ta, Some tb => if (ta <=? tb)%N then settle a else settle b
  | Some _, None => settle a
  | None, _ => settle b
  end.

(** ** The strict variant: [src/app/api/postimg/route.ts] *)

Module Strict.
Section Handler.
Context `{Platform}.

Record Run := {
  outcome : Outcome;
  calls : list Call
}.

Definition respond (r : Response) : Run :=
  {| outcome := Returns 0%N r; calls := [] |}.

(** The outer [catch] of [work]. *)
Definition on_error (err : Thrown) : Response :=
  if isAbortLikeError err then NoBody 204
  else Json 500 "Unexpected error fetching postimg".

(** The part of [work] after [html] has been read. *)
Definition extract_and_redirect (html : string) : Response :=
  match extractOgImage html with
  | None => Json 404 "No og:image found"
  | Some img =>
      if negb (Str.truthy img) then Json 404 "No og:image found"
      else match NextResponse_redirect img 302 with
           | inl r => r
           | inr err => on_error err
           end
  end.

(** The async function [work]; it starts at time 0 and its [try] has a
    catch-all, so it never rejects. *)
Definition work (parsed : URL) (signal : option ms) (w : World)
  : Settled Response * list Call :=
  let call := call_to parsed 0 in
  match fetch w signal 0 0%N with
  | Unsettled => (Unsettled, [call None])
  | Rejected t err => (Fulfilled t (on_error err), [call (Some t)])
  | Fulfilled t (ok, body) =>
      if negb ok then
        (Fulfilled t (Json 502 "Failed to fetch postimg page"), [call (Some t)])
      else
        match text signal body t with
        | Unsettled => (Unsettled, [call None])
        | Rejected t' err =>
            (Fulfilled t'
               (if isAbortLikeError err then NoBody 204 else on_error err),
             [call (Some t')])
        | Fulfilled t' html =>
            (Fulfilled t' (extract_and_redirect html), [call (Some t')])
        end
  end.

(** The timer of [setTimeout(() => controller.abort(), 8000)]. *)
Definition timeout : ms := 8000%N.

(** What [abortTo204] returns, having aborted the controller. *)
Definition abortTo204 : Response := NoBody 204.

(** The handler once the request is accepted and not yet aborted: the
    controller, the two promises and their race. *)
Definition pipeline (parsed : URL) (req : Request) (w : World) : Run :=
  (* [controller] is aborted by the listener on [req.signal] or by the
     timer, whichever comes first *)
  let signal := earliest (req_abort_at req) (Some timeout) in
  let abortResponse :=
    match req_abort_at req with
    | Some a => Fulfilled a abortTo204
    | None => Unsettled
    end in
  let '(work, cs) := work parsed signal w in
  {| outcome := race abortResponse work; calls := cs |}.

Definition GET (req : Request) (w : World) : Run :=
  match req_url req with
  | None => respond (Json 400 "Missing url")
  | Some url =>
      if negb (Str.truthy url) then respond (Json 400 "Missing url")
      else
        match url_parse url with
        | None => respond (Json 400 "Invalid url")
        | Some parsed =>
            if negb (String.eqb (hostname parsed) "postimg.cc") then
              respond (Json 400 "Only postimg.cc is allowed")
            else if aborted_on_arrival req then respond abortTo204
            else pipeline parsed req w
        end
  end.

End Handler.
End Strict.

(** ** The always-an-image variant (the second version of the route) *)

Module Cached.
Section Handler.
Context `{Platform}.

Record CacheEntry := { img : string; ts : Z }.

Definition CACHE_TTL_MS : Z := 1000 * 60 * 60 * 24.

Record Run := {
  outcome : Outcome;
  calls : list Call;
  cache_after : gmap string CacheEntry   (** [globalThis.__postimgCache] *)
}.

Definition cancelled : Response := imageFallbackResponse "Image request cancelled".
Definition unavailable : Response := imageFallbackResponse "Preview unavailable".

(** How the body of the [for] loop is left. *)
Inductive LoopExit :=
| Break (at_ : ms) (html : option string)  (** the loop is over, [html] set or still null *)
| Return (at_ : ms) (r : Response)         (** [return] from inside the loop *)
| Throw (at_ : ms) (err : Thrown)          (** [throw err] to the outer catch *)
| Hang.                                    (** an [await] that never resumes *)

(** The inner [try] block of one attempt: [inl] is a [break], [inr] a
    caught error; [None] when an await never settles. *)
Definition attempt (parsed : URL) (signal : option ms) (w : World)
    (n : nat) (start : ms) : option (ms * (option string + Thrown)) * Call :=
  let call := call_to parsed start in
  match fetch w signal n start with
  | Unsettled => (None, call None)
  | Rejected t err => (Some (t, inr err), call (Some t))
  | Fulfilled t (ok, body) =>
      if negb ok then (Some (t, inl None), call (Some t))
      else
        match text signal body t with
        | Unsettled => (None, call None)
        | Rejected t' err => (Some (t', inr err), call (Some t'))
        | Fulfilled t' html => (Some (t', inl (Some html)), call (Some t'))
        end
  end.

(** [for (let attempt = 0; attempt < 2; attempt++)], with [left] the
    number of iterations the bound still allows. *)
Fixpoint loop (parsed : URL) (signal : option ms) (w : World)
    (left : nat) (attempt_no : nat) (now : ms) : LoopExit * list Call :=
  match left with
  | 0 => (Break now None, [])
  | S left' =>
      let '(r, c) := attempt parsed signal w attempt_no now in
      match r with
      | None => (Hang, [c])
      | Some (t, inl html) => (Break t html, [c])
      | Some (t, inr err) =>
          if isAbortLikeError err then (Return t cancelled, [c])
          else if attempt_no =? 1 then (Throw t err, [c])
          else
            (* [await new Promise((r) => setTimeout(r, 150))] *)
            let '(e, cs) := loop parsed signal w left' (S attempt_no) (t + 150)%N in
            (e, c :: cs)
      end
  end.

(** The outer [catch]. *)
Definition on_error (err : Thrown) : Response :=
  if isAbortLikeError err then cancelled else unavailable.

(** The cache check: the entry under [key], unless 24 h or more have
    passed since its time stamp. *)
Definition lookup_fresh (cache : gmap string CacheEntry) (key : string)
    (now : Z) : option CacheEntry :=
  match cache !! key with
  | Some cached =>
      if (now - ts cached <? CACHE_TTL_MS)%Z then Some cached else None
  | None => None
  end.

(** The end of the [try] block, once the loop is left at [t] by a
    [break]: extraction, the cache write, the redirect. *)
Definition resolve (cache : gmap string CacheEntry) (parsed : URL)
    (w : World) (cs : list Call) (t : ms) (html : option string) : Run :=
  let fallback :=
    {| outcome := Returns t unavailable; calls := cs; cache_after := cache |} in
  match html with
  | None => fallback
  | Some html =>
      if negb (Str.truthy html) then fallback
      else
        match extractOgImage html with
        | None => fallback
        | Some image =>
            if negb (Str.truthy image) then fallback
            else
              {| outcome :=
                   Returns t
                     match NextResponse_redirect image 302 with
                     | inl r => r
                     | inr err => on_error err
                     end;
                 calls := cs;
                 cache_after :=
                   <[href parsed := {| img := image; ts := date_now w t |}]> cache |}
        end
  end.

(** The [try] block. *)
Definition pipeline (cache : gmap string CacheEntry) (parsed : URL)
    (req : Request) (w : World) : Run :=
  if aborted_on_arrival req then
    {| outcome := Returns 0%N cancelled; calls := []; cache_after := cache |}
  else
    (* [controller] is aborted by the listener on [req.signal] only *)
    let signal := req_abort_at req in
    let '(e, cs) := loop parsed signal w 2 0 0%N in
    match e with
    | Hang => {| outcome := Never; calls := cs; cache_after := cache |}
    | Return t r => {| outcome := Returns t r; calls := cs; cache_after := cache |}
    | Throw t err =>
        {| outcome := Returns t (on_error err); calls := cs; cache_after := cache |}
    | Break t html => resolve cache parsed w cs t html
    end.

Definition GET (cache : gmap string CacheEntry) (req : Request) (w : World)
  : Run :=
  let respond r := {| outcome := Returns 0%N r; calls := []; cache_after := cache |} in
  match req_url req with
  | None => respond (imageFallbackResponse "Missing image url")
  | Some url =>
      if negb (Str.truthy url) then respond (imageFallbackResponse "Missing image url")
      else
        match url_parse url with
        | None => respond (imageFallbackResponse "Invalid image url")
        | Some parsed =>
            if negb (String.eqb (hostname parsed) "postimg.cc") then
              respond (imageFallbackResponse "Only postimg.cc is allowed")
            else
              match lookup_fresh cache (href parsed) (date_now w 0%N) with
              | Some cached =>
                  (* the redirect is built outside the [try] *)
                  match NextResponse_redirect (img cached) 302 with
                  | inl r => respond r
                  | inr err =>
                      {| outcome := Throws 0%N err; calls := []; cache_after := cache |}
                  end
              | None => pipeline cache parsed req w
              end
        end
  end.

End Handler.
End Cached.

(** ** A platform to run requests on

    A parser for the URLs of the examples: [https://HOST] followed by
    nothing or by a path; everything else is rejected, as a relative
    reference is by [new URL]. *)

Module Demo.

Fixpoint drop (n : nat) (s : string) : string :=
  match n, s with
  | 0, _ => s
  | S n', String _ s' => drop n' s'
  | S _, EmptyString => EmptyString
  end.

(** The host and whether a path follows it. *)
Fixpoint host (s : string) : string * bool :=
  match s with
  | EmptyString => (EmptyString, false)
  | String c s' =>
      if Ascii.eqb c "/"%char then (EmptyString, true)
      else let '(h, p) := host s' in (String c h, p)
  end.

Definition parse (s : string) : option URL :=
  if Str.startsWith "https://" s then
    let '(h, has_path) := host (drop 8 s) in
    if Str.truthy h then
      Some {| hostname := h; href := if has_path then s else s +:+ "/" |}
    else None
  else None.

Definition malformed (url : string) : ErrObj :=
  {| err_name := Some "Error";
     err_message :=
       Some ("URL is malformed " +:+ q url +:+
             ". Please use only absolute URLs - https://nextjs.org/docs/messages/middleware-relative-urls");
     err_code := None;
     err_cause := Some {| cause_code := Some "ERR_INVALID_URL";
                          cause_name := Some "TypeError";
                          cause_message := Some "Invalid URL" |} |}.

(** The instance the closed statements of this file run on. *)
#[global] Instance platform : Platform :=
  {| url_parse := parse;
     url_parse_empty := eq_refl;
     redirect_error := malformed |}.

(** The page of the spec's concrete scenario. *)
Definition page (image : string) : string :=
  "<html><head><meta property=" +:+ q "og:image" +:+ " content=" +:+ q image
    +:+ "></head></html>".

Definition request (url : string) : Request :=
  {| req_url := Some url; req_abort_at := None |}.

(** An upstream that answers every call with [b]. *)
Definition always (b : FetchBehaviour) : World :=
  {| upstream := fun _ => b; date_now := fun t => (1700000000000 + Z.of_N t)%Z |}.

(** An upstream that answers the first call with [b0] and the others with [b]. *)
Definition first_then (b0 b : FetchBehaviour) : World :=
  {| upstream := fun n => match n with 0 => b0 | _ => b end;
     date_now := fun t => (1700000000000 + Z.of_N t)%Z |}.

(** The same upstream, a minute later on the clock. *)
Definition a_minute_later (w : World) : World :=
  {| upstream := upstream w; date_now := fun t => (date_now w t + 60000)%Z |}.

Definition network_error : Thrown :=
  Obj {| err_name := Some "TypeError"; err_message := Some "fetch failed";
         err_code := None; err_cause := None |}.

End Demo.

(** ** Concrete requests *)

Module Scenario.

Definition target : string := "https://postimg.cc/abc123".
Definition image : string := "https://i.postimg.cc/abc123/x.jpg".

Definition parsed : URL := {| hostname := "postimg.cc"; href := target |}.

(** The answer that carries the page of the specification's example. *)
Definition good : FetchBehaviour := Responds 40 true (BodyText 5 (Demo.page image)).

(** A page whose preview image is a relative reference. *)
Definition relative : FetchBehaviour :=
  Responds 40 true (BodyText 5 (Demo.page "/x.jpg")).

(** A tag with a second attribute whose name ends in [content]. *)
Definition two_contents : string :=
  "<meta property='og:image' content='https://i.postimg.cc/a.jpg' data-content='z'>".

(** Two tags: the reversed order first, then the property first. *)
Definition both_orders : string :=
  "<meta content='first' property='og:image'><meta property='og:image' content='second'>".

(** An entry written on 1 January 1970. *)
Definition old_cache : gmap string Cached.CacheEntry :=
  {[ target := {| Cached.img := image; Cached.ts := 0 |} ]}.

(** A parse failure whose text happens to contain the word. *)
Definition misleading : ErrObj :=
  {| err_name := Some "SyntaxError";
     err_message := Some "Unexpected token: parsing ABORTED at byte 12";
     err_code := None;
     err_cause := None |}.

(** A reset connection on the retry. *)
Definition econnreset : ErrObj :=
  {| err_name := Some "TypeError"; err_message := Some "fetch failed";
     err_code := None;
     err_cause := Some {| cause_code := Some "ECONNRESET";
                          cause_name := Some "Error";
                          cause_message := Some "read ECONNRESET" |} |}.

End Scenario.

(** ** The process-wide cache: [getCache]

    [globalThis.__postimgCache] is absent until [getCache] has run once;
    the map it holds is the one the handler reads and writes.  Requests are
    taken one after the other. *)

Definition getCache (g : option (gmap string Cached.CacheEntry))
  : gmap string Cached.CacheEntry * option (gmap string Cached.CacheEntry) :=
  match g with
  | Some cache => (cache, g)
  | None => (∅, Some ∅)
  end.

(** The request gets past the three input checks, to the line that calls
    [getCache]. *)
Definition reaches_cache `{Platform} (req : Request) : bool :=
  match req_url req with
  | Some url =>
      Str.truthy url &&
      match url_parse url with
      | Some parsed => String.eqb (hostname parsed) "postimg.cc"
      | None => false
      end
  | None => false
  end.

(** The always-an-image handler on the process state. *)
Definition handle `{Platform} (g : option (gmap string Cached.CacheEntry))
    (req : Request) (w : World)
  : Cached.Run * option (gmap string Cached.CacheEntry) :=
  if reaches_cache req then
    let '(cache, _) := getCache g in
    let run := Cached.GET cache req w in
    (run, Some (Cached.cache_after run))
  else (Cached.GET ∅ req w, g).

(** A sequence of requests, each in its own world. *)
Fixpoint handle_all `{Platform} (g : option (gmap string Cached.CacheEntry))
    (rs : list (Request * World))
  : list Cached.Run * option (gmap string Cached.CacheEntry) :=
  match rs with
  | [] => ([], g)
  | (req, w) :: rs' =>
      let '(run, g') := handle g req w in
      let '(runs, g'') := handle_all g' rs' in
      (run :: runs, g'')
  end.

(** The entries of the process state. *)
Definition entries (g : option (gmap string Cached.CacheEntry))
  : gmap string Cached.CacheEntry :=
  match g with
  | Some cache => cache
  | None => ∅
  end.

(** ** The page: the pure expressions of [Home] and its helpers

    Text is a list of UTF-16 code units here, of any type [C]: the
    expressions count and cut units and look at white space only. *)

Module Page.

(** An argument of [cn]: [string | false | null | undefined]. *)
Inductive Part :=
| Class (s : string)
| PFalse
| PNull
| PUndefined.

(** [Boolean(part)] *)
Definition Boolean (p : Part) : bool :=
  match p with
  | Class s => Str.truthy s
  | PFalse | PNull | PUndefined => false
  end.

(** How [join] prints an element. *)
Definition to_string (p : Part) : string :=
  match p with
  | Class s => s
  | PFalse => "false"
  | PNull | PUndefined => EmptyString
  end.

(** [Array.prototype.join] *)
Fixpoint join (sep : string) (l : list string) : string :=
  match l with
  | [] => EmptyString
  | [x] => x
  | x :: rest => x +:+ sep +:+ join sep rest
  end.

(** [parts.filter(Boolean)], as [join] prints its elements. *)
Definition kept (parts : list Part) : list string :=
  map to_string (filter (fun p => Boolean p = true) parts).

(** [cn(...parts)] *)
Definition cn (parts : list Part) : string := join " " (kept parts).

Section Description.
Context {C : Type} (white : C -> bool) (ellipsis : C).

Fixpoint trimStart (l : list C) : list C :=
  match l with
  | c :: l' => if white c then trimStart l' else l
  | [] => []
  end.

Definition trimEnd (l : list C) : list C := rev (trimStart (rev l)).

(** [String.prototype.trim] *)
Definition trim (l : list C) : list C := trimEnd (trimStart l).

(** The text of a project card while it is collapsed: [short]. *)
Definition short (description : list C) : list C :=
  if 240 <? length description
  then trim (firstn 240 description) ++ [ellipsis]
  else description.

End Description.

(** [Boolean(expandedProjects[idx])] *)
Definition expanded (expandedProjects : gmap nat bool) (idx : nat) : bool :=
  default false (expandedProjects !! idx).

(** The update of the Read more / Read less button:
    [{ ...prev, [idx]: !prev[idx] }]. *)
Definition toggle (idx : nat) (prev : gmap nat bool) : gmap nat bool :=
  <[idx := negb (default false (prev !! idx))]> prev.

Definition roles : list string :=
  ["Web Developer"; "AI Technophile"; "Vibe Coder";
   "Java Full Stack Developer"; "Spring Boot Developer"].

(** The update of the 1800 ms interval: [(i + 1) % roles.length]. *)
Definition next_role (i : nat) : nat := (i + 1) mod length roles.

End Page.

(** ** What the specification calls a preview-image meta tag

    Written from the specification's words, to be compared with
    [extractOgImage]: an attribute is a name (with its equals sign, in any
    letter case), a quote, a value and a quote. *)

Inductive attribute (name value : string) : string -> string -> Prop :=
| attribute_at (n : string) (q1 q2 : ascii) (rest : string) :
    Str.eq_ci n name = true ->
    Str.is_quote q1 = true ->
    Str.is_quote q2 = true ->
    attribute name value (n +:+ String q1 (value +:+ String q2 rest)) rest.

(** A non-empty value without quotes. *)
Definition plain_value (X : string) : Prop :=
  Str.all Str.not_quote X = true /\ Str.truthy X = true.

(** [s] starts with the property attribute, and the content attribute
    follows it inside the same tag. *)
Definition property_then_content (X s : string) : Prop :=
  exists o mid r post,
    attribute "property=" o s (mid +:+ r) /\ Str.eq_ci o "og:image" = true /\
    Str.all Str.not_gt mid = true /\
    attribute "content=" X r post /\ plain_value X.

(** The reversed order. *)
Definition content_then_property (X s : string) : Prop :=
  exists o mid r post,
    attribute "content=" X s (mid +:+ r) /\ plain_value X /\
    Str.all Str.not_gt mid = true /\
    attribute "property=" o r post /\ Str.eq_ci o "og:image" = true.

(** [html] contains the pattern with content [X], in either order. *)
Definition og_image_pattern (html X : string) : Prop :=
  exists pre s,
    html = pre +:+ s /\
    (property_then_content X s \/ content_then_property X s).

(** ** Where a pattern can start, by evaluation

    [no_match m] holds of a text the matcher [m] rejects; [all_suffixes f s]
    when [f] holds of every suffix of [s]; [all_before f pre s] when [f]
    holds of every [d +:+ s], [d] a non-empty suffix of [pre]. *)

Definition no_match (m : string -> option string) (s : string) : bool :=
  match m s with
  | None => true
  | Some _ => false
  end.

Fixpoint all_suffixes (f : string -> bool) (s : string) : bool :=
  f s &&
  match s with
  | String _ s' => all_suffixes f s'
  | EmptyString => true
  end.

Fixpoint all_before (f : string -> bool) (pre s : string) : bool :=
  match pre with
  | EmptyString => true
  | String c pre' => f (String c pre' +:+ s) && all_before f pre' s
  end.

(** ** Vocabulary of the statements *)

(** The request passes the three input checks, [parsed] being its target. *)
Definition accepted `{Platform} (req : Request) (parsed : URL) : Prop :=
  exists url,
    req_url req = Some url /\ url_parse url = Some parsed /\
    hostname parsed = "postimg.cc".

(** Left alone, the exchange fails with [err] after [d] ms: [fetch] rejects,
    or the body read does. *)
Inductive fails_after (err : Thrown) : ms -> FetchBehaviour -> Prop :=
| fetch_rejects (lat : ms) : fails_after err lat (Fails lat err)
| body_rejects (lat lat' : ms) :
    fails_after err (lat + lat')%N (Responds lat true (BodyFails lat' err)).

(** Left alone, the exchange delivers the page [html] after [d] ms. *)
Inductive answers_after (html : string) : ms -> FetchBehaviour -> Prop :=
| answers (lat lat' : ms) :
    answers_after html (lat + lat')%N (Responds lat true (BodyText lat' html)).

(** When the exchange is over if nothing aborts it; [None]: never. *)
Definition alone (b : FetchBehaviour) : option ms :=
  match b with
  | Fails lat _ => Some lat
  | Responds lat false _ => Some lat
  | Responds lat true (BodyText lat' _) => Some (lat + lat')%N
  | Responds lat true (BodyFails lat' _) => Some (lat + lat')%N
  | Responds _ true BodyStalls => None
  | Stalls => None
  end.

(** An exchange started at 0 is still going on when a signal fires at [t]. *)
Definition in_flight_at (b : FetchBehaviour) (t : ms) : Prop :=
  match alone b with
  | Some d => (t <= d)%N
  | None => True
  end.

(** No signal fires up to [t]. *)
Definition quiet_until (signal : option ms) (t : ms) : Prop :=
  match signal with
  | Some a => (t < a)%N
  | None => True
  end.

(** [s] mentions [word] in some letter case. *)
Definition mentions (word s : string) : Prop :=
  exists pre mid post, s = pre +:+ mid +:+ post /\ Str.toLowerCase mid = word.

(** The signal shapes the specification lists for a cancellation: an
    abort-style name, a connection-reset code, an upstream-aborted code, or a
    message mentioning the abort, on the error or on its wrapped cause. *)
Definition cancellation_shaped (e : ErrObj) : Prop :=
  err_name e = Some "AbortError" \/
  err_code e = Some "ECONNRESET" \/
  err_code e = Some "UND_ERR_ABORTED" \/
  (exists m, err_message e = Some m /\ mentions "aborted" m) \/
  (exists c,
     err_cause e = Some c /\
     (cause_code c = Some "ECONNRESET" \/
      cause_code c = Some "UND_ERR_ABORTED" \/
      cause_name c = Some "AbortError" \/
      (exists m, cause_message c = Some m /\ mentions "aborted" m))).

(** * Properties *)

#[local] Arguments under_signal : simpl never.
#[local] Arguments fetch : simpl never.
#[local] Arguments text : simpl never.

Ltac ncase :=
  match goal with
  | |- context [(?a <=? ?b)%N] => destruct (N.leb_spec a b)
  | |- context [(?a <? ?b)%N] => destruct (N.ltb_spec a b)
  end.

(** ** Strings *)

Module StrFacts.

Lemma app_assoc (a b c : string) : (a +:+ b) +:+ c = a +:+ (b +:+ c).
Proof. induction a as [|x a IH]; simpl; [reflexivity | now rewrite IH]. Qed.

Lemma app_nil_r (a : string) : a +:+ EmptyString = a.
Proof. induction a as [|x a IH]; simpl; [reflexivity | now rewrite IH]. Qed.

Lemma startsWith_app (p r : string) : Str.startsWith p (p +:+ r) = true.
Proof.
  induction p as [|x p IH]; simpl; [reflexivity|].
  now rewrite Ascii.eqb_refl, IH.
Qed.

Lemma includes_startsWith (needle s : string) :
  Str.startsWith needle s = true -> Str.includes needle s = true.
Proof. intros E. destruct s; simpl; now rewrite E. Qed.

Lemma includes_app (needle pre post : string) :
  Str.includes needle (pre +:+ needle +:+ post) = true.
Proof.
  induction pre as [|x pre IH]; simpl.
  - apply includes_startsWith, startsWith_app.
  - rewrite IH. apply orb_true_r.
Qed.

Lemma toLowerCase_app (a b : string) :
  Str.toLowerCase (a +:+ b) = Str.toLowerCase a +:+ Str.toLowerCase b.
Proof. induction a as [|x a IH]; simpl; [reflexivity | now rewrite IH]. Qed.

End StrFacts.

(** ** The matcher *)

Module ReFacts.
Import StrFacts.

Lemma lit_ci_sound (l : string) (k : Re.K) :
  forall s r, Re.lit_ci l k s = Some r ->
  exists a rest, s = a +:+ rest /\ Str.eq_ci a l = true /\ k rest = Some r.
Proof.
  induction l as [|x l IH]; simpl; intros s r Hm.
  - exists EmptyString, s. auto.
  - destruct s as [|y s]; [discriminate|].
    destruct (Ascii.eqb (Str.lower x) (Str.lower y)) eqn:E; [|discriminate].
    destruct (IH _ _ Hm) as (a & rest & -> & Ha & Hk).
    exists (String y a), rest. simpl.
    rewrite Ascii.eqb_sym, E, Ha. auto.
Qed.

Lemma lit_ci_complete (l : string) (k : Re.K) :
  forall a rest, Str.eq_ci a l = true -> Re.lit_ci l k (a +:+ rest) = k rest.
Proof.
  induction l as [|x l IH]; intros [|y a] rest Ha; simpl in *;
    try discriminate; [reflexivity|].
  apply andb_true_iff in Ha as [E Ha].
  rewrite Ascii.eqb_sym, E. now apply IH.
Qed.

Lemma quote_sound (k : Re.K) (s r : string) :
  Re.quote k s = Some r ->
  exists c rest, s = String c rest /\ Str.is_quote c = true /\ k rest = Some r.
Proof.
  destruct s as [|c s]; simpl; [discriminate|].
  destruct (Str.is_quote c) eqn:E; [|discriminate].
  intros Hk. exists c, s. auto.
Qed.

Lemma quote_complete (k : Re.K) (c : ascii) (rest : string) :
  Str.is_quote c = true -> Re.quote k (String c rest) = k rest.
Proof. intros E. unfold Re.quote. now rewrite E. Qed.

Lemma greedy_sound (p : ascii -> bool) (k : string -> Re.K) :
  forall s taken r, Re.greedy p k taken s = Some r ->
  exists a rest,
    s = a +:+ rest /\ Str.all p a = true /\ k (taken +:+ a) rest = Some r.
Proof.
  induction s as [|c s IH]; simpl; intros taken r Hm.
  - exists EmptyString, EmptyString. rewrite !app_nil_r. auto.
  - destruct (p c) eqn:Hp.
    + destruct (Re.greedy p k (taken +:+ String c EmptyString) s) as [r'|] eqn:Hg.
      * injection Hm as ->.
        destruct (IH _ _ Hg) as (a & rest & -> & Ha & Hk).
        exists (String c a), rest. simpl. rewrite Hp, Ha.
        rewrite app_assoc in Hk. auto.
      * exists EmptyString, (String c s). rewrite !app_nil_r. auto.
    + exists EmptyString, (String c s). rewrite !app_nil_r. auto.
Qed.

(** Some split accepted by the continuation makes the repetition succeed,
    possibly on a longer run. *)
Lemma greedy_complete (p : ascii -> bool) (k : string -> Re.K) :
  forall a taken rest r,
    Str.all p a = true -> k (taken +:+ a) rest = Some r ->
    exists r', Re.greedy p k taken (a +:+ rest) = Some r'.
Proof.
  induction a as [|c a IH]; simpl; intros taken rest r Ha Hk.
  - rewrite app_nil_r in Hk.
    destruct rest as [|c s]; simpl; [eauto|].
    destruct (p c); [|eauto].
    destruct (Re.greedy p k (taken +:+ String c EmptyString) s); eauto.
  - apply andb_true_iff in Ha as [Hp Ha]. rewrite Hp.
    destruct (IH (taken +:+ String c EmptyString) rest r Ha) as [r' Hr'].
    + now rewrite app_assoc.
    + rewrite Hr'. eauto.
Qed.

Lemma search_sound (m : string -> option string) :
  forall s r, Re.search m s = Some r ->
  exists pre rest, s = pre +:+ rest /\ m rest = Some r.
Proof.
  induction s as [|c s IH]; simpl; intros r Hm.
  - destruct (m EmptyString) eqn:E; [|discriminate].
    injection Hm as ->. exists EmptyString, EmptyString. auto.
  - destruct (m (String c s)) eqn:E.
    + injection Hm as ->. exists EmptyString, (String c s). auto.
    + destruct (IH _ Hm) as (pre & rest & -> & Hr).
      exists (String c pre), rest. auto.
Qed.


End ReFacts.

(** ** [extractOgImage] against the specification's pattern *)

(** The page of the specification's scenario, the reversed order in capital
    letters, an empty content, and a page without the property. *)
Example extract_scenario :
  extractOgImage (Demo.page Scenario.image) = Some Scenario.image.
Proof. reflexivity. Qed.

Example extract_reversed :
  extractOgImage "<META CONTENT='a.png' PROPERTY='OG:IMAGE'>" = Some "a.png".
Proof. reflexivity. Qed.

Example extract_empty_content :
  extractOgImage "<meta property='og:image' content=''>" = None.
Proof. reflexivity. Qed.

Example extract_no_property :
  extractOgImage "<meta name='description' content='x'>" = None.
Proof. reflexivity. Qed.

Module ExtractFacts.
Import StrFacts ReFacts.

Lemma content_attr_sound (k : string -> Re.K) (s r : string) :
  Re.content_attr k s = Some r ->
  exists X rest, attribute "content=" X s rest /\ plain_value X /\ k X rest = Some r.
Proof.
  unfold Re.content_attr, Re.plus_not_quote. intros Hm.
  apply lit_ci_sound in Hm as (n & s1 & -> & Hn & Hm).
  apply quote_sound in Hm as (q1 & s2 & -> & Hq1 & Hm).
  apply greedy_sound in Hm as (X & s3 & -> & HX & Hm). simpl in Hm.
  destruct (Str.truthy X) eqn:Ht; [|discriminate].
  apply quote_sound in Hm as (q2 & rest & -> & Hq2 & Hm).
  exists X, rest. split; [|split]; auto.
  - now constructor.
  - now split.
Qed.

Lemma content_attr_complete (k : string -> Re.K) (X s rest r : string) :
  attribute "content=" X s rest -> plain_value X -> k X rest = Some r ->
  exists r', Re.content_attr k s = Some r'.
Proof.
  intros [n q1 q2 rest' Hn Hq1 Hq2] [HX Ht] Hk.
  unfold Re.content_attr, Re.plus_not_quote.
  rewrite lit_ci_complete, quote_complete by assumption.
  eapply greedy_complete; [exact HX|].
  change (EmptyString +:+ X) with X. rewrite Ht.
  rewrite quote_complete by assumption. exact Hk.
Qed.

Lemma property_attr_sound (k : Re.K) (s r : string) :
  Re.property_attr k s = Some r ->
  exists o rest,
    attribute "property=" o s rest /\ Str.eq_ci o "og:image" = true /\
    k rest = Some r.
Proof.
  unfold Re.property_attr. intros Hm.
  apply lit_ci_sound in Hm as (n & s1 & -> & Hn & Hm).
  apply quote_sound in Hm as (q1 & s2 & -> & Hq1 & Hm).
  apply lit_ci_sound in Hm as (o & s3 & -> & Ho & Hm).
  apply quote_sound in Hm as (q2 & rest & -> & Hq2 & Hm).
  exists o, rest. split; [|split]; auto. now constructor.
Qed.

Lemma property_attr_complete (k : Re.K) (o s rest : string) :
  attribute "property=" o s rest -> Str.eq_ci o "og:image" = true ->
  Re.property_attr k s = k rest.
Proof.
  intros [n q1 q2 rest' Hn Hq1 Hq2] Ho. unfold Re.property_attr.
  rewrite lit_ci_complete, quote_complete by assumption.
  now rewrite lit_ci_complete, quote_complete by assumption.
Qed.

Lemma star_sound (k : Re.K) (s r : string) :
  Re.star_not_gt k s = Some r ->
  exists mid rest,
    s = mid +:+ rest /\ Str.all Str.not_gt mid = true /\ k rest = Some r.
Proof.
  intros Hm. apply greedy_sound in Hm as (mid & rest & -> & Hmid & Hm). eauto.
Qed.

Lemma star_complete (k : Re.K) (mid rest r : string) :
  Str.all Str.not_gt mid = true -> k rest = Some r ->
  exists r', Re.star_not_gt k (mid +:+ rest) = Some r'.
Proof. intros Hmid Hk. eapply greedy_complete; eauto. Qed.

Lemma property_first_sound (s X : string) :
  Re.property_first s = Some X -> property_then_content X s.
Proof.
  unfold Re.property_first. intros Hm.
  apply property_attr_sound in Hm as (o & r1 & Hp & Ho & Hm).
  apply star_sound in Hm as (mid & r & -> & Hmid & Hm).
  apply content_attr_sound in Hm as (X' & post & Hc & HX & [= ->]).
  exists o, mid, r, post. auto.
Qed.

Lemma property_first_complete (s X : string) :
  property_then_content X s -> exists X', Re.property_first s = Some X'.
Proof.
  intros (o & mid & r & post & Hp & Ho & Hmid & Hc & HX).
  unfold Re.property_first. rewrite (property_attr_complete _ _ _ _ Hp Ho).
  destruct (content_attr_complete (fun cap _ => Some cap) _ _ _ X Hc HX eq_refl)
    as [r' Hr'].
  eapply star_complete; eauto.
Qed.

Lemma content_first_sound (s X : string) :
  Re.content_first s = Some X -> content_then_property X s.
Proof.
  unfold Re.content_first. intros Hm.
  apply content_attr_sound in Hm as (X' & r1 & Hc & HX & Hm).
  apply star_sound in Hm as (mid & r & -> & Hmid & Hm).
  apply property_attr_sound in Hm as (o & post & Hp & Ho & [= ->]).
  exists o, mid, r, post. auto.
Qed.

Lemma content_first_complete (s X : string) :
  content_then_property X s -> exists X', Re.content_first s = Some X'.
Proof.
  intros (o & mid & r & post & Hc & HX & Hmid & Hp & Ho).
  unfold Re.content_first.
  assert (Hk : Re.property_attr (fun _ => Some X) r = Some X)
    by now rewrite (property_attr_complete _ _ _ _ Hp Ho).
  destruct (star_complete _ _ _ _ Hmid Hk) as [r' Hr'].
  eapply content_attr_complete; [exact Hc | exact HX | exact Hr'].
Qed.

(** A match, if any, carries the content of a pattern the page contains. *)
Lemma extract_sound (html X : string) :
  extractOgImage html = Some X -> og_image_pattern html X.
Proof.
  unfold extractOgImage.
  destruct (Re.search Re.property_first html) as [img|] eqn:E1.
  - intros [= ->].
    apply search_sound in E1 as (pre & s & -> & Hm).
    exists pre, s. split; [reflexivity|]. left. now apply property_first_sound.
  - intros E2.
    apply search_sound in E2 as (pre & s & -> & Hm).
    exists pre, s. split; [reflexivity|]. right. now apply content_first_sound.
Qed.


End ExtractFacts.

(** ** The input checks *)

Section InputChecks.
Context `{Platform}.

Lemma parsed_truthy (url : string) (parsed : URL) :
  url_parse url = Some parsed -> Str.truthy url = true.
Proof.
  destruct url; [|reflexivity]. rewrite url_parse_empty. discriminate.
Qed.

Lemma strict_accepted (req : Request) (parsed : URL) (w : World) :
  accepted req parsed ->
  Strict.GET req w
  = if aborted_on_arrival req then Strict.respond (NoBody 204)
    else Strict.pipeline parsed req w.
Proof.
  intros (url & Hu & Hp & Hh). unfold Strict.GET.
  rewrite Hu, (parsed_truthy _ _ Hp), Hp, Hh. reflexivity.
Qed.

Lemma cached_accepted (cache : gmap string Cached.CacheEntry)
    (req : Request) (parsed : URL) (w : World) :
  accepted req parsed ->
  Cached.GET cache req w
  = match Cached.lookup_fresh cache (href parsed) (date_now w 0%N) with
    | Some cached =>
        match NextResponse_redirect (Cached.img cached) 302 with
        | inl r => {| Cached.outcome := Returns 0%N r; Cached.calls := [];
                      Cached.cache_after := cache |}
        | inr err => {| Cached.outcome := Throws 0%N err; Cached.calls := [];
                        Cached.cache_after := cache |}
        end
    | None => Cached.pipeline cache parsed req w
    end.
Proof.
  intros (url & Hu & Hp & Hh). unfold Cached.GET.
  rewrite Hu, (parsed_truthy _ _ Hp), Hp, Hh. reflexivity.
Qed.

(** An outbound call is only ever made for an accepted request. *)
Lemma strict_calls_accepted (req : Request) (w : World) :
  Strict.calls (Strict.GET req w) <> [] -> exists parsed, accepted req parsed.
Proof.
  unfold Strict.GET, accepted.
  destruct (req_url req) as [url|]; [|now intros []].
  destruct (Str.truthy url); [|now intros []]. simpl.
  destruct (url_parse url) as [parsed|] eqn:Hp; [|now intros []].
  destruct (String.eqb_spec (hostname parsed) "postimg.cc") as [Hh|Hh];
    [|now intros []].
  intros _. exists parsed, url. auto.
Qed.

Lemma cached_calls_accepted (cache : gmap string Cached.CacheEntry)
    (req : Request) (w : World) :
  Cached.calls (Cached.GET cache req w) <> [] -> exists parsed, accepted req parsed.
Proof.
  unfold Cached.GET, accepted.
  destruct (req_url req) as [url|]; [|now intros []].
  destruct (Str.truthy url); [|now intros []]. simpl.
  destruct (url_parse url) as [parsed|] eqn:Hp; [|now intros []].
  destruct (String.eqb_spec (hostname parsed) "postimg.cc") as [Hh|Hh];
    [|now intros []].
  intros _. exists parsed, url. auto.
Qed.

End InputChecks.

(** ** Signals on the time line *)

Section Timeline.
Context `{Platform}.

(** An operation under a signal settles as it would alone, or is cut short
    with an [AbortError]. *)
Lemma under_signal_cases {A} (signal : option ms) (start : ms) (p : Settled A) :
  under_signal signal start p = p \/
  exists t, under_signal signal start p = Rejected t AbortError.
Proof.
  unfold under_signal. destruct signal as [a|]; [|now left].
  ncase; [right; eauto|].
  destruct p; try ncase; eauto.
Qed.

(** Under a signal that fires at [a], nothing started by then is left
    unsettled after [a]. *)
Lemma under_signal_bound {A} (a start : ms) (p : Settled A) :
  (start <= a)%N ->
  match under_signal (Some a) start p with
  | Fulfilled t _ => (t < a)%N
  | Rejected t _ => (t <= a)%N
  | Unsettled => False
  end.
Proof.
  intros Hs. unfold under_signal. ncase; [lia|].
  destruct p; try ncase; lia.
Qed.

(** A signal that fires while the operation is going on rejects it at
    that very time. *)
Lemma under_signal_cut {A} (a start : ms) (p : Settled A) :
  (start <= a)%N ->
  match p with
  | Fulfilled t _ | Rejected t _ => (a <= t)%N
  | Unsettled => True
  end ->
  under_signal (Some a) start p = Rejected a AbortError.
Proof.
  intros Hs Hp. unfold under_signal. ncase.
  - now replace start with a by lia.
  - destruct p; try ncase; try reflexivity; lia.
Qed.

(** A signal that fires later leaves the operation alone. *)
Lemma under_signal_before {A} (a start : ms) (p : Settled A) :
  match p with
  | Fulfilled t _ | Rejected t _ => (start <= t < a)%N
  | Unsettled => False
  end ->
  under_signal (Some a) start p = p.
Proof.
  intros Hp. unfold under_signal.
  destruct p; try contradiction; repeat ncase; try reflexivity; lia.
Qed.

(** A race between promises that can only yield [r] yields [r]. *)
Lemma race_same (a b : Settled Response) (r : Response) (t : ms) :
  (a = Unsettled \/ exists ta, a = Fulfilled ta r) ->
  b = Fulfilled t r ->
  exists t', race a b = Returns t' r /\ (t' <= t)%N.
Proof.
  intros [-> | [ta ->]] ->; unfold race; simpl.
  - exists t. split; [reflexivity | lia].
  - ncase; [exists ta | exists t]; split; try reflexivity; lia.
Qed.

End Timeline.

(** ** Outbound calls under a signal *)

Section Calls.

Lemma fetch_fails (w : World) (signal : option ms) (n : nat) (start lat : ms)
    (err : Thrown) :
  upstream w n = Fails lat err ->
  exists t err',
    fetch w signal n start = Rejected t err' /\ (err' = err \/ err' = AbortError).
Proof.
  intros Hu. unfold fetch. rewrite Hu.
  destruct (under_signal_cases signal start
              (Rejected (A := bool * BodyBehaviour) (start + lat) err))
    as [-> | [t ->]]; eauto.
Qed.

Lemma fetch_responds (w : World) (signal : option ms) (n : nat) (start lat : ms)
    (ok : bool) (body : BodyBehaviour) :
  upstream w n = Responds lat ok body ->
  fetch w signal n start = Fulfilled (start + lat) (ok, body) \/
  exists t, fetch w signal n start = Rejected t AbortError.
Proof.
  intros Hu. unfold fetch. rewrite Hu. apply under_signal_cases.
Qed.

Lemma text_fails (signal : option ms) (start lat : ms) (err : Thrown) :
  exists t err',
    text signal (BodyFails lat err) start = Rejected t err' /\
    (err' = err \/ err' = AbortError).
Proof.
  unfold text.
  destruct (under_signal_cases signal start
              (Rejected (A := string) (start + lat) err)) as [-> | [t ->]]; eauto.
Qed.

Lemma abort_like_either (err err' : Thrown) :
  isAbortLikeError err = true -> err' = err \/ err' = AbortError ->
  isAbortLikeError err' = true.
Proof. intros He [-> | ->]; [exact He | reflexivity]. Qed.

End Calls.

(** ** The strict variant *)

Section StrictFacts.
Context `{Platform}.

(** [work] makes one call and resolves when that call is over. *)
Lemma strict_work_shape (parsed : URL) (signal : option ms) (w : World) :
  exists p over,
    Strict.work parsed signal w = (p, [call_to parsed 0 over]) /\
    match p with
    | Fulfilled t _ => over = Some t
    | Rejected _ _ => False
    | Unsettled => over = None
    end.
Proof.
  unfold Strict.work, call_to.
  destruct (fetch w signal 0 0) as [t [ok body]|t err|];
    [destruct ok; simpl; [destruct (text signal body t)|] | |];
    eexists _, _; (split; [reflexivity|]); reflexivity.
Qed.

(** Under a signal firing at [s], [work] is over by [s]. *)
Lemma strict_work_bound (parsed : URL) (s : ms) (w : World) :
  exists t r,
    Strict.work parsed (Some s) w = (Fulfilled t r, [call_to parsed 0 (Some t)]) /\
    (t <= s)%N.
Proof.
  unfold Strict.work, call_to, fetch, text.
  match goal with
  | |- context [under_signal (Some s) 0%N ?p] =>
      pose proof (under_signal_bound s 0 p (N.le_0_l s)) as Hb;
      destruct (under_signal (Some s) 0%N p) as [t [ok body]|t err|]
  end; [| eexists _, _; split; [reflexivity | lia] | contradiction].
  destruct ok; simpl; [|eexists _, _; split; [reflexivity | lia]].
  match goal with
  | |- context [under_signal (Some s) t ?p] =>
      pose proof (under_signal_bound s t p (N.lt_le_incl _ _ Hb)) as Hb';
      destruct (under_signal (Some s) t p) as [t' html|t' err|]
  end; [| | contradiction]; eexists _, _; (split; [reflexivity | lia]).
Qed.

Lemma earliest_timeout (a : option ms) :
  exists s, earliest a (Some Strict.timeout) = Some s /\
            (s <= Strict.timeout)%N /\
            match a with Some x => (s <= x)%N | None => True end.
Proof.
  destruct a as [x|]; simpl; eexists; (split; [reflexivity|]); lia.
Qed.

(** Every invocation returns a response, within the timeout. *)
Lemma strict_returns (req : Request) (w : World) :
  exists t r,
    Strict.outcome (Strict.GET req w) = Returns t r /\ (t <= Strict.timeout)%N.
Proof.
  assert (Hz : forall r, exists t r',
             Strict.outcome (Strict.respond r) = Returns t r' /\
             (t <= Strict.timeout)%N).
  { intros r. exists 0%N, r. split; [reflexivity | apply N.le_0_l]. }
  unfold Strict.GET.
  destruct (req_url req) as [url|]; [|apply Hz].
  destruct (negb (Str.truthy url)); [apply Hz|].
  destruct (url_parse url) as [parsed|]; [|apply Hz].
  destruct (negb _); [apply Hz|].
  destruct (aborted_on_arrival req); [apply Hz|].
  unfold Strict.pipeline.
  destruct (earliest_timeout (req_abort_at req)) as (s & -> & Hs & Ha).
  destruct (strict_work_bound parsed s w) as (t & r & -> & Ht). simpl.
  destruct (req_abort_at req) as [a|]; unfold race; simpl.
  - ncase; eexists _, _; (split; [reflexivity | lia]).
  - eexists _, _; (split; [reflexivity | lia]).
Qed.

(** No call is still going on once the timeout has passed. *)
Lemma strict_calls_over (req : Request) (w : World) (c : Call) :
  In c (Strict.calls (Strict.GET req w)) ->
  exists e, call_over c = Some e /\ (e <= Strict.timeout)%N /\
            match req_abort_at req with Some a => (e <= a)%N | None => True end.
Proof.
  unfold Strict.GET.
  destruct (req_url req) as [url|]; [|intros []].
  destruct (negb (Str.truthy url)); [intros []|].
  destruct (url_parse url) as [parsed|]; [|intros []].
  destruct (negb _); [intros []|].
  destruct (aborted_on_arrival req); [intros []|].
  unfold Strict.pipeline.
  destruct (earliest_timeout (req_abort_at req)) as (s & -> & Hs & Ha).
  destruct (strict_work_bound parsed s w) as (t & r & -> & Ht). simpl.
  intros [<- | []]. exists t. simpl. split; [reflexivity|]. split; [lia|].
  destruct (req_abort_at req); [lia | exact I].
Qed.

Lemma strict_at_most_one_call (req : Request) (w : World) :
  length (Strict.calls (Strict.GET req w)) <= 1.
Proof.
  unfold Strict.GET.
  destruct (req_url req) as [url|]; [|simpl; lia].
  destruct (negb (Str.truthy url)); [simpl; lia|].
  destruct (url_parse url) as [parsed|]; [|simpl; lia].
  destruct (negb _); [simpl; lia|].
  destruct (aborted_on_arrival req); [simpl; lia|].
  unfold Strict.pipeline.
  destruct (strict_work_shape parsed
              (earliest (req_abort_at req) (Some Strict.timeout)) w)
    as (p & over & -> & _).
  simpl. lia.
Qed.

End StrictFacts.

Section StrictPipeline.
Context `{Platform}.

Lemma on_error_abort : Strict.on_error AbortError = NoBody 204.
Proof. reflexivity. Qed.

(** A signal that fires while the exchange is going on turns [work] into
    a 204 at that time. *)
Lemma strict_work_cut (parsed : URL) (w : World) (s : ms) :
  in_flight_at (upstream w 0) s ->
  Strict.work parsed (Some s) w
  = (Fulfilled s (NoBody 204), [call_to parsed 0 (Some s)]).
Proof.
  unfold in_flight_at, alone, Strict.work, fetch, call_to.
  destruct (upstream w 0) as [l ok body|l err|]; intros Hf.
  - destruct (N.le_gt_cases s l) as [Hl|Hl].
    + rewrite under_signal_cut by (simpl; lia). now rewrite on_error_abort.
    + rewrite under_signal_before by (simpl; lia). simpl.
      destruct ok; [|lia]. simpl. unfold text.
      destruct body; rewrite under_signal_cut by (simpl; lia); reflexivity.
  - rewrite under_signal_cut by (simpl; lia). now rewrite on_error_abort.
  - rewrite under_signal_cut by (simpl; lia). now rewrite on_error_abort.
Qed.

Lemma strict_signal_cuts (req : Request) (parsed : URL) (w : World) (s : ms) :
  accepted req parsed ->
  aborted_on_arrival req = false ->
  earliest (req_abort_at req) (Some Strict.timeout) = Some s ->
  in_flight_at (upstream w 0) s ->
  Strict.GET req w
  = {| Strict.outcome := Returns s (NoBody 204);
       Strict.calls := [call_to parsed 0 (Some s)] |}.
Proof.
  intros Ha Hn Hs Hf. rewrite (strict_accepted _ _ _ Ha), Hn.
  unfold Strict.pipeline. rewrite Hs, (strict_work_cut _ _ _ Hf).
  f_equal. destruct (req_abort_at req) as [a|]; simpl in *; [|reflexivity].
  injection Hs as <-. unfold race. simpl. ncase; [|reflexivity].
  f_equal. lia.
Qed.

(** The single call failing on its own, with an error that is not
    abort-like, ends in the 500 response: there is no second call. *)
Lemma strict_transient_failure (req : Request) (parsed : URL) (w : World)
    (err : Thrown) (d : ms) :
  accepted req parsed ->
  req_abort_at req = None ->
  fails_after err d (upstream w 0) ->
  (d < Strict.timeout)%N ->
  isAbortLikeError err = false ->
  Strict.GET req w
  = {| Strict.outcome := Returns d (Json 500 "Unexpected error fetching postimg");
       Strict.calls := [call_to parsed 0 (Some d)] |}.
Proof.
  intros Ha Hn Hf Hd He. rewrite (strict_accepted _ _ _ Ha).
  unfold aborted_on_arrival, Strict.pipeline. rewrite Hn. simpl.
  unfold Strict.work, fetch, call_to.
  inversion Hf as [lat Hlat Hu | lat lat' Hlat Hu]; subst.
  - rewrite under_signal_before by (simpl; lia).
    unfold Strict.on_error. now rewrite He.
  - rewrite under_signal_before by (simpl; lia). simpl. unfold text.
    rewrite under_signal_before by (simpl; lia).
    unfold Strict.on_error. now rewrite He.
Qed.

(** A call that fails with an abort-like error ends in the 204 response,
    whatever the signals do. *)
Lemma strict_abort_like (req : Request) (parsed : URL) (w : World)
    (err : Thrown) (d : ms) :
  accepted req parsed ->
  fails_after err d (upstream w 0) ->
  isAbortLikeError err = true ->
  exists t, Strict.outcome (Strict.GET req w) = Returns t (NoBody 204).
Proof.
  intros Ha Hf He. rewrite (strict_accepted _ _ _ Ha).
  destruct (aborted_on_arrival req); [now exists 0%N|].
  unfold Strict.pipeline.
  set (signal := earliest _ _).
  assert (Hw : exists t cs,
             Strict.work parsed signal w = (Fulfilled t (NoBody 204), cs)).
  { unfold Strict.work.
    inversion Hf as [lat Hlat Hu | lat lat' Hlat Hu]; subst; symmetry in Hu.
    - destruct (fetch_fails w signal 0 0 _ _ Hu) as (t & e' & -> & He').
      unfold Strict.on_error. rewrite (abort_like_either _ _ He He'). eauto.
    - destruct (fetch_responds w signal 0 0 _ _ _ Hu) as [-> | [t ->]];
        [|rewrite on_error_abort; eauto].
      simpl.
      destruct (text_fails signal (0 + lat) lat' err) as (t & e' & -> & He').
      rewrite (abort_like_either _ _ He He'). eauto. }
  destruct Hw as (t & cs & ->).
  destruct (race_same
              match req_abort_at req with
              | Some a => Fulfilled a (NoBody 204)
              | None => Unsettled
              end (Fulfilled t (NoBody 204)) (NoBody 204) t) as (t' & Hr & _);
    [destruct (req_abort_at req); eauto | reflexivity |].
  exists t'. exact Hr.
Qed.

End StrictPipeline.

(** ** The always-an-image variant *)

Section CachedFacts.
Context `{Platform}.

(** An attempt whose exchange fails ends in the [catch], with that error
    or with the [AbortError] of the signal. *)
Lemma attempt_fails (parsed : URL) (signal : option ms) (w : World)
    (n : nat) (start d : ms) (err : Thrown) :
  fails_after err d (upstream w n) ->
  exists t err',
    Cached.attempt parsed signal w n start
    = (Some (t, inr err'), call_to parsed start (Some t)) /\
    (err' = err \/ err' = AbortError).
Proof.
  intros Hf. unfold Cached.attempt, call_to.
  inversion Hf as [lat Hlat Hu | lat lat' Hlat Hu]; subst; symmetry in Hu.
  - destruct (fetch_fails w signal n start _ _ Hu) as (t & e' & -> & He').
    eauto.
  - destruct (fetch_responds w signal n start _ _ _ Hu) as [-> | [t ->]];
      [|eauto].
    simpl.
    destruct (text_fails signal (start + lat) lat' err) as (t & e' & -> & He').
    eauto.
Qed.

(** Without a signal, the attempt sees the exchange as it is. *)
Lemma attempt_fails_alone (parsed : URL) (w : World) (n : nat)
    (start d : ms) (err : Thrown) :
  fails_after err d (upstream w n) ->
  Cached.attempt parsed None w n start
  = (Some ((start + d)%N, inr err), call_to parsed start (Some (start + d)%N)).
Proof.
  intros Hf. unfold Cached.attempt, call_to, fetch, text, under_signal.
  inversion Hf as [lat Hlat Hu | lat lat' Hlat Hu]; subst; simpl;
    rewrite ?N.add_assoc; reflexivity.
Qed.

Lemma attempt_answers_alone (parsed : URL) (w : World) (n : nat)
    (start d : ms) (html : string) :
  answers_after html d (upstream w n) ->
  Cached.attempt parsed None w n start
  = (Some ((start + d)%N, inl (Some html)),
     call_to parsed start (Some (start + d)%N)).
Proof.
  intros Hf. unfold Cached.attempt, call_to, fetch, text, under_signal.
  inversion Hf as [lat lat' Hlat Hu]; subst; simpl.
  rewrite ?N.add_assoc; reflexivity.
Qed.

(** A signal firing during the first exchange ends the attempt there. *)
Lemma attempt_cut (parsed : URL) (w : World) (a : ms) :
  in_flight_at (upstream w 0) a ->
  Cached.attempt parsed (Some a) w 0 0
  = (Some (a, inr AbortError), call_to parsed 0 (Some a)).
Proof.
  unfold in_flight_at, alone, Cached.attempt, fetch, call_to.
  destruct (upstream w 0) as [l ok body|l err|]; intros Hf.
  - destruct (N.le_gt_cases a l) as [Hl|Hl].
    + now rewrite under_signal_cut by (simpl; lia).
    + rewrite under_signal_before by (simpl; lia). simpl.
      destruct ok; [|lia]. simpl. unfold text.
      destruct body; rewrite under_signal_cut by (simpl; lia); reflexivity.
  - now rewrite under_signal_cut by (simpl; lia).
  - now rewrite under_signal_cut by (simpl; lia).
Qed.

(** The loop makes at most as many calls as its bound allows. *)
Lemma loop_calls_length (parsed : URL) (signal : option ms) (w : World) :
  forall left n now,
    length (snd (Cached.loop parsed signal w left n now)) <= left.
Proof.
  induction left as [|left IH]; intros n now; simpl; [lia|].
  destruct (Cached.attempt parsed signal w n now) as [[[t [html|err]]|] c];
    simpl; try lia.
  destruct (isAbortLikeError err); simpl; [lia|].
  destruct (n =? 1); simpl; [lia|].
  specialize (IH (S n) (t + 150)%N).
  destruct (Cached.loop parsed signal w left (S n) (t + 150)%N) as [e cs].
  simpl in *. lia.
Qed.

Lemma attempt_call (parsed : URL) (signal : option ms) (w : World)
    (n : nat) (start : ms) :
  exists over,
    snd (Cached.attempt parsed signal w n start) = call_to parsed start over.
Proof.
  unfold Cached.attempt, call_to.
  destruct (fetch w signal n start) as [t [ok body]|t err|]; simpl; eauto.
  destruct (negb ok); simpl; eauto.
  destruct (text signal body t); simpl; eauto.
Qed.

(** It starts with a call to the target, made at once. *)
Lemma loop_first_call (parsed : URL) (signal : option ms) (w : World)
    (left n : nat) (now : ms) :
  exists over cs,
    snd (Cached.loop parsed signal w (S left) n now)
    = call_to parsed now over :: cs.
Proof.
  simpl. destruct (attempt_call parsed signal w n now) as [over Hc].
  destruct (Cached.attempt parsed signal w n now) as [r c].
  simpl in Hc. subst c.
  destruct r as [[t [html|err]]|]; simpl; eauto.
  destruct (isAbortLikeError err); simpl; eauto.
  destruct (n =? 1); simpl; eauto.
  destruct (Cached.loop parsed signal w left (S n) (t + 150)%N); simpl; eauto.
Qed.

(** An abort-like failure of the attempt in hand leaves the loop at once,
    by the cancelled response. *)
Lemma loop_abort_like (parsed : URL) (signal : option ms) (w : World)
    (left n : nat) (now d : ms) (err : Thrown) :
  fails_after err d (upstream w n) ->
  isAbortLikeError err = true ->
  exists t,
    Cached.loop parsed signal w (S left) n now
    = (Cached.Return t Cached.cancelled, [call_to parsed now (Some t)]).
Proof.
  intros Hf He. simpl.
  destruct (attempt_fails parsed signal w n now d err Hf) as (t & e' & -> & He').
  rewrite (abort_like_either _ _ He He'). eauto.
Qed.

End CachedFacts.

Section CachedPipeline.
Context `{Platform}.

Implicit Types (cache : gmap string Cached.CacheEntry) (parsed : URL)
  (req : Request) (w : World).

Lemma resolve_calls cache parsed w cs t html :
  Cached.calls (Cached.resolve cache parsed w cs t html) = cs.
Proof.
  unfold Cached.resolve. destruct html as [html|]; [|reflexivity].
  destruct (negb (Str.truthy html)); [reflexivity|].
  destruct (extractOgImage html) as [image|]; [|reflexivity].
  destruct (negb (Str.truthy image)); reflexivity.
Qed.

(** The only response the loop itself returns is the cancelled one. *)
Lemma loop_return parsed signal w :
  forall left n now t r cs,
    Cached.loop parsed signal w left n now = (Cached.Return t r, cs) ->
    r = Cached.cancelled.
Proof.
  induction left as [|left IH]; intros n now t r cs; simpl; [discriminate|].
  destruct (Cached.attempt parsed signal w n now) as [[[t' [html|err]]|] c];
    try discriminate.
  destruct (isAbortLikeError err); [now intros [= _ <- _]|].
  destruct (n =? 1); [discriminate|].
  destruct (Cached.loop parsed signal w left (S n) (t' + 150)%N) as [e cs'] eqn:E.
  intros [= -> _]. eauto.
Qed.

Lemma cached_at_most_two_calls cache req w :
  length (Cached.calls (Cached.GET cache req w)) <= 2.
Proof.
  unfold Cached.GET.
  destruct (req_url req) as [url|]; [|simpl; lia].
  destruct (negb (Str.truthy url)); [simpl; lia|].
  destruct (url_parse url) as [parsed|]; [|simpl; lia].
  destruct (negb _); [simpl; lia|].
  destruct (Cached.lookup_fresh _ _ _) as [cached|].
  { destruct (NextResponse_redirect _ _); simpl; lia. }
  unfold Cached.pipeline.
  destruct (aborted_on_arrival req); [simpl; lia|].
  pose proof (loop_calls_length parsed (req_abort_at req) w 2 0 0%N) as Hl.
  destruct (Cached.loop parsed (req_abort_at req) w 2 0 0%N) as [e cs].
  destruct e; rewrite ?resolve_calls; exact Hl.
Qed.

(** An abort-like failure of the first call, or of the second after the
    first has failed, ends in the cancelled response; no call follows. *)
Lemma cached_abort_like cache req parsed w (k : nat) (err : Thrown) (d : ms) :
  accepted req parsed ->
  Cached.lookup_fresh cache (href parsed) (date_now w 0%N) = None ->
  fails_after err d (upstream w k) ->
  isAbortLikeError err = true ->
  k = 0 \/ (k = 1 /\ exists err0 d0, fails_after err0 d0 (upstream w 0)) ->
  exists t,
    Cached.outcome (Cached.GET cache req w) = Returns t Cached.cancelled /\
    length (Cached.calls (Cached.GET cache req w)) <= S k /\
    Cached.cache_after (Cached.GET cache req w) = cache.
Proof.
  intros Ha Hm Hf He Hk. rewrite (cached_accepted _ _ _ _ Ha), Hm.
  unfold Cached.pipeline.
  destruct (aborted_on_arrival req); [exists 0%N; simpl; auto with arith|].
  destruct Hk as [-> | [-> (e0 & d0 & Hf0)]].
  - destruct (loop_abort_like parsed (req_abort_at req) w 1 0 0 d err Hf He)
      as [t ->].
    exists t. simpl. auto.
  - simpl.
    destruct (attempt_fails parsed (req_abort_at req) w 0 0 d0 e0 Hf0)
      as (t0 & e0' & -> & _).
    destruct (isAbortLikeError e0'); [exists t0; simpl; auto|].
    change (0 =? 1) with false. cbv iota.
    destruct (attempt_fails parsed (req_abort_at req) w 1 (t0 + 150) d err Hf)
      as (t & e' & -> & He').
    rewrite (abort_like_either _ _ He He'). exists t. simpl. auto.
Qed.

(** A first failure that is not abort-like, then a page with a
    well-formed preview image: the 302, after two calls 150 ms apart. *)
Lemma cached_retry_success cache req parsed w (err0 : Thrown) (d0 d1 : ms)
    (html image : string) (u : URL) :
  accepted req parsed ->
  Cached.lookup_fresh cache (href parsed) (date_now w 0%N) = None ->
  req_abort_at req = None ->
  fails_after err0 d0 (upstream w 0) ->
  isAbortLikeError err0 = false ->
  answers_after html d1 (upstream w 1) ->
  extractOgImage html = Some image ->
  url_parse image = Some u ->
  Cached.GET cache req w
  = {| Cached.outcome := Returns (d0 + 150 + d1)%N (Redirect 302 (href u));
       Cached.calls :=
         [call_to parsed 0 (Some d0);
          call_to parsed (d0 + 150) (Some (d0 + 150 + d1)%N)];
       Cached.cache_after :=
         <[href parsed := {| Cached.img := image;
                             Cached.ts := date_now w (d0 + 150 + d1)%N |}]> cache |}.
Proof.
  intros Ha Hm Hn Hf0 He0 Hf1 Hx Hu.
  rewrite (cached_accepted _ _ _ _ Ha), Hm.
  unfold Cached.pipeline, aborted_on_arrival. rewrite Hn. simpl.
  rewrite (attempt_fails_alone _ _ _ _ _ _ Hf0), He0. simpl.
  rewrite (attempt_answers_alone _ _ _ _ _ _ Hf1).
  unfold Cached.resolve.
  assert (Hh : Str.truthy html = true).
  { destruct html; [discriminate Hx | reflexivity]. }
  rewrite Hh, Hx. simpl.
  assert (Hi : Str.truthy image = true).
  { apply ExtractFacts.extract_sound in Hx
      as (pre & s & _ & [(o & mid & r & post & _ & _ & _ & _ & _ & Ht)
                        | (o & mid & r & post & _ & [_ Ht] & _)]); exact Ht. }
  rewrite Hi. unfold NextResponse_redirect. rewrite Hu. reflexivity.
Qed.

(** Two failures that are not abort-like: the generic placeholder, after
    two calls; the cache is left as it was. *)
Lemma cached_retry_failure cache req parsed w (err0 err1 : Thrown) (d0 d1 : ms) :
  accepted req parsed ->
  Cached.lookup_fresh cache (href parsed) (date_now w 0%N) = None ->
  req_abort_at req = None ->
  fails_after err0 d0 (upstream w 0) ->
  isAbortLikeError err0 = false ->
  fails_after err1 d1 (upstream w 1) ->
  isAbortLikeError err1 = false ->
  Cached.GET cache req w
  = {| Cached.outcome := Returns (d0 + 150 + d1)%N Cached.unavailable;
       Cached.calls :=
         [call_to parsed 0 (Some d0);
          call_to parsed (d0 + 150) (Some (d0 + 150 + d1)%N)];
       Cached.cache_after := cache |}.
Proof.
  intros Ha Hm Hn Hf0 He0 Hf1 He1.
  rewrite (cached_accepted _ _ _ _ Ha), Hm.
  unfold Cached.pipeline, aborted_on_arrival. rewrite Hn. simpl.
  rewrite (attempt_fails_alone _ _ _ _ _ _ Hf0), He0. simpl.
  rewrite (attempt_fails_alone _ _ _ _ _ _ Hf1), He1. simpl.
  unfold Cached.on_error. now rewrite He1.
Qed.

End CachedPipeline.

Section CachedCache.
Context `{Platform}.

Implicit Types (cache : gmap string Cached.CacheEntry) (parsed : URL)
  (req : Request) (w : World).

(** The inbound abort firing during the first exchange: the cancelled
    response at that time. *)
Lemma cached_signal_cuts cache req parsed w (a : ms) :
  accepted req parsed ->
  Cached.lookup_fresh cache (href parsed) (date_now w 0%N) = None ->
  req_abort_at req = Some a ->
  a <> 0%N ->
  in_flight_at (upstream w 0) a ->
  Cached.GET cache req w
  = {| Cached.outcome := Returns a Cached.cancelled;
       Cached.calls := [call_to parsed 0 (Some a)];
       Cached.cache_after := cache |}.
Proof.
  intros Ha Hm Hs Hz Hf. rewrite (cached_accepted _ _ _ _ Ha), Hm.
  unfold Cached.pipeline, aborted_on_arrival. rewrite Hs.
  destruct a as [|p]; [contradiction|]. simpl.
  now rewrite (attempt_cut _ _ _ Hf).
Qed.

(** A fresh entry answers the request by itself. *)
Lemma cached_hit cache req parsed w (cached : Cached.CacheEntry) (u : URL) :
  accepted req parsed ->
  cache !! href parsed = Some cached ->
  (date_now w 0%N - Cached.ts cached < Cached.CACHE_TTL_MS)%Z ->
  url_parse (Cached.img cached) = Some u ->
  Cached.GET cache req w
  = {| Cached.outcome := Returns 0%N (Redirect 302 (href u));
       Cached.calls := [];
       Cached.cache_after := cache |}.
Proof.
  intros Ha Hc Ht Hu. rewrite (cached_accepted _ _ _ _ Ha).
  unfold Cached.lookup_fresh. rewrite Hc.
  destruct (Z.ltb_spec (date_now w 0%N - Cached.ts cached) Cached.CACHE_TTL_MS);
    [|lia].
  unfold NextResponse_redirect. now rewrite Hu.
Qed.

(** An entry of 24 h or more is not looked at. *)
Lemma lookup_fresh_expired cache (key : string) (now : Z)
    (cached : Cached.CacheEntry) :
  cache !! key = Some cached ->
  (Cached.CACHE_TTL_MS <= now - Cached.ts cached)%Z ->
  Cached.lookup_fresh cache key now = None.
Proof.
  intros Hc Ht. unfold Cached.lookup_fresh. rewrite Hc.
  destruct (Z.ltb_spec (now - Cached.ts cached) Cached.CACHE_TTL_MS);
    [lia | reflexivity].
Qed.

(** Without a fresh entry, a request that is not aborted on arrival makes
    an outbound call to its target at once. *)
Lemma cached_miss_fetches cache req parsed w :
  accepted req parsed ->
  Cached.lookup_fresh cache (href parsed) (date_now w 0%N) = None ->
  aborted_on_arrival req = false ->
  exists over cs,
    Cached.calls (Cached.GET cache req w) = call_to parsed 0 over :: cs.
Proof.
  intros Ha Hm Hn. rewrite (cached_accepted _ _ _ _ Ha), Hm.
  unfold Cached.pipeline. rewrite Hn.
  destruct (loop_first_call parsed (req_abort_at req) w 1 0 0%N)
    as (over & cs & Hl).
  destruct (Cached.loop parsed (req_abort_at req) w 2 0 0%N) as [e cs'].
  simpl in Hl. subst cs'. exists over, cs.
  destruct e; rewrite ?resolve_calls; reflexivity.
Qed.

(** With one that is, there is no call. *)
Lemma cached_miss_aborted cache req parsed w :
  accepted req parsed ->
  Cached.lookup_fresh cache (href parsed) (date_now w 0%N) = None ->
  aborted_on_arrival req = true ->
  Cached.GET cache req w
  = {| Cached.outcome := Returns 0%N Cached.cancelled;
       Cached.calls := [];
       Cached.cache_after := cache |}.
Proof.
  intros Ha Hm Hn. rewrite (cached_accepted _ _ _ _ Ha), Hm.
  unfold Cached.pipeline. now rewrite Hn.
Qed.

(** The pipeline answers with a redirect only after storing the extracted
    image under the target, stamped with the time of the answer. *)
Lemma pipeline_redirect cache parsed req w (t : ms) (st : nat) (loc : string) :
  Cached.outcome (Cached.pipeline cache parsed req w) = Returns t (Redirect st loc) ->
  exists image u,
    url_parse image = Some u /\ loc = href u /\ st = 302 /\
    Cached.cache_after (Cached.pipeline cache parsed req w)
    = <[href parsed := {| Cached.img := image; Cached.ts := date_now w t |}]> cache.
Proof.
  unfold Cached.pipeline.
  destruct (aborted_on_arrival req); [discriminate|].
  destruct (Cached.loop parsed (req_abort_at req) w 2 0 0%N) as [e cs] eqn:El.
  destruct e as [t' html|t' r|t' err|]; simpl.
  - unfold Cached.resolve.
    destruct html as [html|]; [|discriminate].
    destruct (negb (Str.truthy html)); [discriminate|].
    destruct (extractOgImage html) as [image|]; [|discriminate].
    destruct (negb (Str.truthy image)); [discriminate|]. simpl.
    unfold NextResponse_redirect.
    destruct (url_parse image) as [u|] eqn:Hu.
    + intros [= ? ? ?]; subst. exists image, u. auto.
    + unfold Cached.on_error. destruct (isAbortLikeError _); discriminate.
  - apply loop_return in El as ->. discriminate.
  - unfold Cached.on_error. destruct (isAbortLikeError err); discriminate.
  - discriminate.
Qed.

(** The cache is left as it was, or gets one entry, under the target. *)
Lemma cached_cache_after cache req w :
  Cached.cache_after (Cached.GET cache req w) = cache \/
  exists parsed image t,
    accepted req parsed /\
    Cached.cache_after (Cached.GET cache req w)
    = <[href parsed := {| Cached.img := image; Cached.ts := date_now w t |}]> cache.
Proof.
  unfold Cached.GET, accepted.
  destruct (req_url req) as [url|]; [|now left].
  destruct (Str.truthy url); [|now left]. simpl.
  destruct (url_parse url) as [parsed|] eqn:Hp; [|now left].
  destruct (String.eqb_spec (hostname parsed) "postimg.cc") as [Hh|Hh];
    [|now left]. simpl.
  destruct (Cached.lookup_fresh _ _ _) as [cached|].
  { destruct (NextResponse_redirect _ _); now left. }
  unfold Cached.pipeline.
  destruct (aborted_on_arrival req); [now left|].
  destruct (Cached.loop parsed (req_abort_at req) w 2 0 0%N) as [e cs].
  destruct e as [t' html|t' r|t' err|]; try now left.
  unfold Cached.resolve.
  destruct html as [html|]; [|now left].
  destruct (negb (Str.truthy html)); [now left|].
  destruct (extractOgImage html) as [image|]; [|now left].
  destruct (negb (Str.truthy image)); [now left|].
  right. exists parsed, image, t'. simpl. split; [|reflexivity].
  exists url. auto.
Qed.

(** The handler throws in one situation only: a fresh entry whose image
    is not an absolute URL. *)
Lemma cached_throws cache req w (t : ms) (err : Thrown) :
  Cached.outcome (Cached.GET cache req w) = Throws t err ->
  exists parsed cached,
    accepted req parsed /\
    Cached.lookup_fresh cache (href parsed) (date_now w 0%N) = Some cached /\
    url_parse (Cached.img cached) = None.
Proof.
  unfold Cached.GET, accepted.
  destruct (req_url req) as [url|]; [|discriminate].
  destruct (Str.truthy url); [|discriminate]. simpl.
  destruct (url_parse url) as [parsed|] eqn:Hp; [|discriminate].
  destruct (String.eqb_spec (hostname parsed) "postimg.cc") as [Hh|Hh];
    [|discriminate]. simpl.
  destruct (Cached.lookup_fresh _ _ _) as [cached|] eqn:Hc.
  - unfold NextResponse_redirect.
    destruct (url_parse (Cached.img cached)) eqn:Hu; [discriminate|].
    intros _. exists parsed, cached. repeat split; auto. exists url. auto.
  - unfold Cached.pipeline.
    destruct (aborted_on_arrival req); [discriminate|].
    destruct (Cached.loop parsed (req_abort_at req) w 2 0 0%N) as [e cs].
    destruct e as [t' html|t' r|t' e'|]; try discriminate.
    unfold Cached.resolve.
    destruct html as [html|]; [|discriminate].
    destruct (negb (Str.truthy html)); [discriminate|].
    destruct (extractOgImage html) as [image|]; [|discriminate].
    destruct (negb (Str.truthy image)); discriminate.
Qed.

End CachedCache.

(** ** The always-an-image variant under an inbound abort *)

Section CachedAbort.
Context `{Platform}.

(** Under a signal firing at [a], an attempt is over before [a], or ends
    with the [AbortError] at [a] (at once when started later). *)
Lemma attempt_signal_bound (parsed : URL) (w : World) (a : ms) (n : nat)
    (start : ms) :
  exists t r,
    Cached.attempt parsed (Some a) w n start
    = (Some (t, r), call_to parsed start (Some t)) /\
    (start <= t)%N /\
    ((t < a)%N \/ (r = inr AbortError /\ t = N.max a start)).
Proof.
  unfold Cached.attempt, fetch, text, under_signal.
  destruct (upstream w n) as [l ok body|l err|].
  - destruct (N.leb_spec a start).
    { eexists _, _. split; [reflexivity|]. split; [lia|]. right. split; [reflexivity | lia]. }
    destruct (N.ltb_spec (start + l) a).
    2:{ eexists _, _. split; [reflexivity|]. split; [lia|]. right. split; [reflexivity | lia]. }
    destruct ok; simpl.
    2:{ eexists _, _. split; [reflexivity|]. split; [lia|]. now left. }
    destruct (N.leb_spec a (start + l)); [lia|].
    destruct body as [l' html|l' err|];
      try destruct (N.ltb_spec (start + l + l') a);
      (eexists _, _; split; [reflexivity|]; split; [lia|]);
      solve [now left | right; split; [reflexivity | lia]].
  - destruct (N.leb_spec a start);
      [|destruct (N.ltb_spec (start + l) a)];
      (eexists _, _; split; [reflexivity|]; split; [lia|]);
      solve [now left | right; split; [reflexivity | lia]].
  - destruct (N.leb_spec a start);
      (eexists _, _; split; [reflexivity|]; split; [lia|]);
      right; split; try reflexivity; lia.
Qed.

Lemma call_to_not_pending (parsed : URL) (a start t t' : ms) :
  (start <= t)%N -> (t < a)%N \/ t = N.max a start -> (a <= t')%N ->
  ~ pending_at (call_to parsed start (Some t)) t'.
Proof. unfold pending_at. simpl. lia. Qed.

(** The loop under a signal firing at [a]: it never hangs; it is left
    before [a], or by the cancelled response no later than 150 ms after
    [a]; and none of its calls is pending from [a] on. *)
Lemma loop_signal_bound (parsed : URL) (w : World) (a : ms) :
  forall left n now,
    (now < a + 150)%N ->
    0 < left ->
    n + left = 2 ->
    exists e cs,
      Cached.loop parsed (Some a) w left n now = (e, cs) /\
      match e with
      | Cached.Break t _ | Cached.Throw t _ => (t < a)%N
      | Cached.Return t r => r = Cached.cancelled /\ (t <= a + 150)%N
      | Cached.Hang => False
      end /\
      forall c t', In c cs -> (a <= t')%N -> ~ pending_at c t'.
Proof.
  induction left as [|left IH]; intros n now Hnow Hleft Hn; [lia|]. simpl.
  destruct (attempt_signal_bound parsed w a n now) as (t & r & -> & Hst & Hr).
  assert (Hc : forall c t', In c [call_to parsed now (Some t)] -> (a <= t')%N ->
                            ~ pending_at c t').
  { intros c t' [<- | []] Ht'. apply (call_to_not_pending _ a); auto.
    destruct Hr as [Hr | [_ Hr]]; auto. }
  destruct r as [html|err].
  - destruct Hr as [Hr | [Hr _]]; [|discriminate]. eauto.
  - destruct (isAbortLikeError err) eqn:He.
    + eexists _, _. split; [reflexivity|]. split; [|exact Hc].
      split; [reflexivity|]. lia.
    + destruct Hr as [Hr | [Hr _]]; [|injection Hr as ->; discriminate].
      destruct (Nat.eqb_spec n 1) as [Hn1|Hn1]; [eauto|].
      destruct left as [|left']; [lia|].
      destruct (IH (S n) (t + 150)%N) as (e & cs & -> & He' & Hcs);
        [lia | lia | lia |].
      eexists _, _. split; [reflexivity|]. split; [exact He'|].
      intros c t' [<- | Hin] Ht'; [apply Hc; [now left | exact Ht'] | eauto].
Qed.

(** With an inbound abort at [a], the handler answers: before [a], or with
    the cancelled placeholder; in any case by [a + 150], and with no call
    pending from [a] on. *)
Lemma cached_abort_bound (cache : gmap string Cached.CacheEntry)
    (req : Request) (parsed : URL) (w : World) (a : ms) :
  accepted req parsed ->
  Cached.lookup_fresh cache (href parsed) (date_now w 0%N) = None ->
  req_abort_at req = Some a ->
  (exists t r,
     Cached.outcome (Cached.GET cache req w) = Returns t r /\
     ((t < a)%N \/ r = Cached.cancelled) /\ (t <= a + 150)%N) /\
  (forall c t',
     In c (Cached.calls (Cached.GET cache req w)) -> (a <= t')%N ->
     ~ pending_at c t').
Proof.
  intros Ha Hm Hs. rewrite (cached_accepted _ _ _ _ Ha), Hm.
  unfold Cached.pipeline.
  destruct (aborted_on_arrival req).
  { split; [|intros c t' []]. exists 0%N, Cached.cancelled. simpl.
    repeat split; auto. lia. }
  rewrite Hs.
  destruct (loop_signal_bound parsed w a 2 0 0%N) as (e & cs & -> & He & Hcs);
    [lia | lia | reflexivity |].
  destruct e as [t html|t r|t err|]; simpl.
  - rewrite resolve_calls. split; [|exact Hcs].
    unfold Cached.resolve.
    destruct html as [html|]; [|exists t, Cached.unavailable; simpl; split; [reflexivity|]; lia].
    destruct (negb (Str.truthy html));
      [exists t, Cached.unavailable; simpl; split; [reflexivity|]; lia|].
    destruct (extractOgImage html) as [image|];
      [|exists t, Cached.unavailable; simpl; split; [reflexivity|]; lia].
    destruct (negb (Str.truthy image));
      [exists t, Cached.unavailable; simpl; split; [reflexivity|]; lia|].
    simpl. eexists _, _. split; [reflexivity|]. lia.
  - destruct He as [-> Ht]. split; [|exact Hcs].
    exists t, Cached.cancelled. auto.
  - split; [|exact Hcs]. eexists _, _. split; [reflexivity|]. lia.
  - contradiction.
Qed.

End CachedAbort.

(** ** [isAbortLikeError] *)

Section AbortLike.

Lemma startsWith_split (p : string) :
  forall s, Str.startsWith p (Str.toLowerCase s) = true ->
  exists mid post, s = mid +:+ post /\ Str.toLowerCase mid = p.
Proof.
  induction p as [|a p IH]; intros s Hs.
  - exists EmptyString, s. auto.
  - destruct s as [|b s]; simpl in Hs; [discriminate|].
    apply andb_true_iff in Hs as [Hab Hs]. apply Ascii.eqb_eq in Hab.
    destruct (IH _ Hs) as (mid & post & -> & <-).
    exists (String b mid), post. simpl. now rewrite Hab.
Qed.

Lemma includes_split (p : string) :
  forall s, Str.includes p (Str.toLowerCase s) = true -> mentions p s.
Proof.
  induction s as [|b s IH]; simpl; intros Hs.
  - rewrite orb_false_r in Hs. destruct p; [|discriminate].
    exists EmptyString, EmptyString, EmptyString. auto.
  - apply orb_true_iff in Hs as [Hs | Hs].
    + destruct (startsWith_split p (String b s) Hs) as (mid & post & -> & <-).
      exists EmptyString, mid, post. auto.
    + destruct (IH Hs) as (pre & mid & post & -> & <-).
      exists (String b pre), mid, post. auto.
Qed.

Lemma lower_includes_mentions (word m : string) :
  mentions word m -> lower_includes (Some m) word = true.
Proof.
  intros (pre & mid & post & -> & <-). simpl.
  rewrite !StrFacts.toLowerCase_app. apply StrFacts.includes_app.
Qed.

Lemma lower_includes_iff (word : string) (o : option string) :
  lower_includes o word = true <-> exists m, o = Some m /\ mentions word m.
Proof.
  split.
  - destruct o as [m|]; [|discriminate]. intros Hm.
    exists m. split; [reflexivity|]. now apply includes_split.
  - intros (m & -> & Hm). now apply lower_includes_mentions.
Qed.

Lemma is_str_iff (o : option string) (lit : string) :
  is_str o lit = true <-> o = Some lit.
Proof.
  destruct o as [v|]; simpl; [|split; discriminate].
  rewrite String.eqb_eq. split; congruence.
Qed.

(** [isAbortLikeError] accepts exactly the shapes the specification lists. *)
Lemma isAbortLikeError_shapes (e : ErrObj) :
  isAbortLikeError (Obj e) = true <-> cancellation_shaped e.
Proof.
  unfold cancellation_shaped, cause_field. simpl.
  rewrite !orb_true_iff, !is_str_iff, !lower_includes_iff.
  unfold cause_field. destruct (err_cause e) as [c|]; split.
  - intros [[[[[[[?|?]|?]|?]|?]|?]|?]|(m & Hm & Hw)]; auto 6; do 4 right; exists c;
      (split; [reflexivity|]); auto 6. do 3 right. eauto.
  - intros [?|[?|[?|[?|(c' & [= <-] & [?|[?|[?|?]]])]]]]; auto 10.
  - intros [[[[[[[?|?]|?]|?]|?]|?]|?]|(m & Hm & Hw)]; auto 6; discriminate.
  - intros [?|[?|[?|[?|(c' & [=] & _)]]]]; auto 10.
Qed.

Lemma abort_like_message (e : ErrObj) (m : string) :
  err_message e = Some m -> mentions "aborted" m ->
  isAbortLikeError (Obj e) = true.
Proof.
  intros Hm Hw. apply isAbortLikeError_shapes. do 3 right. left. eauto.
Qed.

Lemma abort_like_cause_message (e : ErrObj) (c : ErrCause) (m : string) :
  err_cause e = Some c -> cause_message c = Some m -> mentions "aborted" m ->
  isAbortLikeError (Obj e) = true.
Proof.
  intros Hc Hm Hw. apply isAbortLikeError_shapes. do 4 right.
  exists c. split; [exact Hc|]. do 3 right. eauto.
Qed.

End AbortLike.

(** ** Further facts on both variants *)

Section Support.
Context `{Platform}.

Lemma accepted_unique (req : Request) (p1 p2 : URL) :
  accepted req p1 -> accepted req p2 -> p1 = p2.
Proof.
  intros (u1 & Hu1 & Hp1 & _) (u2 & Hu2 & Hp2 & _). congruence.
Qed.

(** Without an inbound abort, an upstream that never finishes leaves the
    always-an-image handler waiting for ever. *)
Lemma cached_never (cache : gmap string Cached.CacheEntry) (req : Request)
    (parsed : URL) (w : World) :
  accepted req parsed ->
  Cached.lookup_fresh cache (href parsed) (date_now w 0%N) = None ->
  req_abort_at req = None ->
  alone (upstream w 0) = None ->
  Cached.GET cache req w
  = {| Cached.outcome := Never;
       Cached.calls := [call_to parsed 0 None];
       Cached.cache_after := cache |}.
Proof.
  intros Ha Hm Hn Hs. rewrite (cached_accepted _ _ _ _ Ha), Hm.
  unfold Cached.pipeline, aborted_on_arrival. rewrite Hn. simpl.
  unfold Cached.attempt, fetch, text, under_signal, alone in *.
  destruct (upstream w 0) as [l ok body|l err|]; try discriminate; [|reflexivity].
  destruct ok; [|discriminate]. destruct body; try discriminate. reflexivity.
Qed.

Lemma not_pending_after (c : Call) (e t : ms) :
  call_over c = Some e -> (e <= t)%N -> ~ pending_at c t.
Proof. unfold pending_at. intros -> Hle [_ Hlt]. lia. Qed.

End Support.

Lemma target_accepted (abort_at : option ms) :
  accepted {| req_url := Some Scenario.target; req_abort_at := abort_at |}
           Scenario.parsed.
Proof. exists Scenario.target. repeat split. Qed.

(** * The statements of the specification *)

(** C3. A request whose [url] parses but names a host other than
    [postimg.cc] gets the host-not-allowed response of the variant (400 with
    the JSON error, or the 200 SVG placeholder) and no outbound call; and a
    handler that makes an outbound call has been given a URL whose hostname
    is exactly [postimg.cc]. *)
Theorem host_not_allowed `{Platform} (cache : gmap string Cached.CacheEntry)
    (req : Request) (w : World) :
  (forall url parsed,
     req_url req = Some url -> url_parse url = Some parsed ->
     hostname parsed <> "postimg.cc" ->
     Strict.GET req w
     = {| Strict.outcome := Returns 0%N (Json 400 "Only postimg.cc is allowed");
          Strict.calls := [] |} /\
     Cached.GET cache req w
     = {| Cached.outcome :=
            Returns 0%N (Image 200 "image/svg+xml; charset=utf-8" "public, max-age=300"
                           (svgPlaceholder "Only postimg.cc is allowed"));
          Cached.calls := [];
          Cached.cache_after := cache |}) /\
  (Strict.calls (Strict.GET req w) <> [] ->
   exists url parsed,
     req_url req = Some url /\ url_parse url = Some parsed /\
     hostname parsed = "postimg.cc") /\
  (Cached.calls (Cached.GET cache req w) <> [] ->
   exists url parsed,
     req_url req = Some url /\ url_parse url = Some parsed /\
     hostname parsed = "postimg.cc").
Proof.
  split; [|split].
  - intros url parsed Hu Hp Hh.
    apply String.eqb_neq in Hh.
    unfold Strict.GET, Cached.GET.
    rewrite Hu, (parsed_truthy _ _ Hp), Hp, Hh. split; reflexivity.
  - intros Hc. destruct (strict_calls_accepted _ _ Hc) as (parsed & url & Ha).
    eauto.
  - intros Hc. destruct (cached_calls_accepted _ _ _ Hc) as (parsed & url & Ha).
    eauto.
Qed.

(** A subdomain of the allowed host is another host. *)
Example subdomain_not_allowed :
  Strict.GET (Demo.request "https://i.postimg.cc/abc123/x.jpg")
    (Demo.always Scenario.good)
  = {| Strict.outcome := Returns 0%N (Json 400 "Only postimg.cc is allowed");
       Strict.calls := [] |}.
Proof. reflexivity. Qed.

Lemma host_not_allowed_witness :
  Strict.GET (Demo.request "https://evil.example.com/x") (Demo.always Scenario.good)
  = {| Strict.outcome := Returns 0%N (Json 400 "Only postimg.cc is allowed");
       Strict.calls := [] |}.
Proof.
  refine (proj1 (proj1 (host_not_allowed ∅ (Demo.request "https://evil.example.com/x")
                          (Demo.always Scenario.good))
                   "https://evil.example.com/x"
                   {| hostname := "evil.example.com";
                      href := "https://evil.example.com/x" |} _ _ _));
    [reflexivity | reflexivity | discriminate].
Defined.

(** C6. A request without [url] (absent or empty), or whose [url] is not an
    absolute URL, gets the invalid-input response of the variant and no
    outbound call. *)
Theorem invalid_input `{Platform} (cache : gmap string Cached.CacheEntry)
    (req : Request) (w : World) :
  (req_url req = None \/ req_url req = Some EmptyString ->
   Strict.GET req w
   = {| Strict.outcome := Returns 0%N (Json 400 "Missing url"); Strict.calls := [] |} /\
   Cached.GET cache req w
   = {| Cached.outcome :=
          Returns 0%N (Image 200 "image/svg+xml; charset=utf-8" "public, max-age=300"
                         (svgPlaceholder "Missing image url"));
        Cached.calls := [];
        Cached.cache_after := cache |}) /\
  (forall url,
     req_url req = Some url -> url <> EmptyString -> url_parse url = None ->
     Strict.GET req w
     = {| Strict.outcome := Returns 0%N (Json 400 "Invalid url"); Strict.calls := [] |} /\
     Cached.GET cache req w
     = {| Cached.outcome :=
            Returns 0%N (Image 200 "image/svg+xml; charset=utf-8" "public, max-age=300"
                           (svgPlaceholder "Invalid image url"));
          Cached.calls := [];
          Cached.cache_after := cache |}).
Proof.
  split.
  - intros [Hu | Hu]; unfold Strict.GET, Cached.GET; rewrite Hu; split; reflexivity.
  - intros url Hu Hne Hp. unfold Strict.GET, Cached.GET. rewrite Hu, Hp.
    destruct url; [contradiction|]. split; reflexivity.
Qed.

Lemma invalid_input_witness :
  Strict.GET (Demo.request "postimg.cc/abc123") (Demo.always Scenario.good)
  = {| Strict.outcome := Returns 0%N (Json 400 "Invalid url"); Strict.calls := [] |} /\
  Cached.outcome
    (Cached.GET ∅ {| req_url := None; req_abort_at := None |} (Demo.always Scenario.good))
  = Returns 0%N (imageFallbackResponse "Missing image url").
Proof.
  split.
  - refine (proj1 (proj2 (invalid_input ∅ (Demo.request "postimg.cc/abc123")
                            (Demo.always Scenario.good))
                     "postimg.cc/abc123" _ _ _));
      [reflexivity | discriminate | reflexivity].
  - refine (f_equal Cached.outcome
              (proj2 (proj1 (invalid_input ∅ {| req_url := None; req_abort_at := None |}
                               (Demo.always Scenario.good)) _)));
      left; reflexivity.
Defined.

Lemma two_contents_pattern :
  og_image_pattern Scenario.two_contents "https://i.postimg.cc/a.jpg".
Proof.
  exists "<meta ", "property='og:image' content='https://i.postimg.cc/a.jpg' data-content='z'>".
  split; [reflexivity|]. left.
  exists "og:image", " ", "content='https://i.postimg.cc/a.jpg' data-content='z'>",
    " data-content='z'>".
  split; [|split; [reflexivity | split; [reflexivity | split]]].
  - exact (attribute_at "property=" "og:image" "property=" "'"%char "'"%char _
             eq_refl eq_refl eq_refl).
  - exact (attribute_at "content=" "https://i.postimg.cc/a.jpg" "content="
             "'"%char "'"%char _ eq_refl eq_refl eq_refl).
  - split; reflexivity.
Qed.

(** C4 fails on the code. The tag carries [property='og:image'] and
    [content='https://i.postimg.cc/a.jpg'], so the page contains the pattern
    with that content, and the result is [z], the value of the later
    [data-content] attribute: the [content=] of the expression also matches
    at the end of a longer attribute name, and the repetition before it gives
    back as little as it can. Without the further attribute the result is
    the content. *)
Theorem extractOgImage_not_exactly_X :
  og_image_pattern Scenario.two_contents "https://i.postimg.cc/a.jpg" /\
  extractOgImage Scenario.two_contents = Some "z" /\
  extractOgImage Scenario.two_contents <> Some "https://i.postimg.cc/a.jpg" /\
  extractOgImage "<meta property='og:image' content='https://i.postimg.cc/a.jpg'>"
  = Some "https://i.postimg.cc/a.jpg".
Proof.
  split; [exact two_contents_pattern|].
  split; [reflexivity | split; [discriminate | reflexivity]].
Qed.

(** C9. An error whose [message], or whose [cause.message], contains
    [aborted] in any letter case is abort-like; when an outbound call fails
    with it, both handlers answer with the cancellation-shaped response,
    whatever the failure really was. *)
Theorem aborted_message_is_cancellation `{Platform}
    (cache : gmap string Cached.CacheEntry) (req : Request) (parsed : URL)
    (w : World) (e : ErrObj) (d : ms) :
  (exists m, err_message e = Some m /\ mentions "aborted" m) \/
  (exists c m, err_cause e = Some c /\ cause_message c = Some m /\
               mentions "aborted" m) ->
  isAbortLikeError (Obj e) = true /\
  (accepted req parsed -> fails_after (Obj e) d (upstream w 0) ->
   (exists t, Strict.outcome (Strict.GET req w) = Returns t (NoBody 204)) /\
   (Cached.lookup_fresh cache (href parsed) (date_now w 0%N) = None ->
    exists t,
      Cached.outcome (Cached.GET cache req w)
      = Returns t (imageFallbackResponse "Image request cancelled"))).
Proof.
  intros Hm.
  assert (He : isAbortLikeError (Obj e) = true).
  { destruct Hm as [(m & Hm & Hw) | (c & m & Hc & Hm & Hw)].
    - exact (abort_like_message _ _ Hm Hw).
    - exact (abort_like_cause_message _ _ _ Hc Hm Hw). }
  split; [exact He|]. intros Ha Hf. split.
  - exact (strict_abort_like _ _ _ _ _ Ha Hf He).
  - intros Hmiss.
    destruct (cached_abort_like cache req parsed w 0 _ _ Ha Hmiss Hf He (or_introl eq_refl))
      as (t & Ht & _).
    exists t. exact Ht.
Qed.

Lemma aborted_message_is_cancellation_witness :
  isAbortLikeError (Obj Scenario.misleading) = true /\
  (exists t,
     Strict.outcome
       (Strict.GET (Demo.request Scenario.target)
          (Demo.always (Responds 40 true (BodyFails 5 (Obj Scenario.misleading)))))
     = Returns t (NoBody 204)).
Proof.
  destruct (aborted_message_is_cancellation ∅ (Demo.request Scenario.target)
              Scenario.parsed
              (Demo.always (Responds 40 true (BodyFails 5 (Obj Scenario.misleading))))
              Scenario.misleading 45%N) as [He Hh].
  - left. exists "Unexpected token: parsing ABORTED at byte 12".
    split; [reflexivity|].
    exists "Unexpected token: parsing ", "ABORTED", " at byte 12".
    split; reflexivity.
  - split; [exact He|].
    apply Hh; [apply target_accepted | exact (body_rejects _ 40 5)].
Defined.

(** C7. An error of one of the cancellation shapes (abort-style name,
    connection-reset or upstream-aborted code, a message mentioning the
    abort, on the error or on its cause) is abort-like, and is classified
    as a cancellation wherever it is caught: both [catch] blocks map it to
    the cancellation-shaped response (204 with no body; the placeholder
    labelled [Image request cancelled], status 200), which is neither a 404
    nor a 5xx; and when an outbound call fails with it (the first, or the
    second after a failed first), that response is returned and no further
    call is made. *)
Theorem cancellation_priority `{Platform}
    (cache : gmap string Cached.CacheEntry) (req : Request) (parsed : URL)
    (w : World) (k : nat) (e : ErrObj) (d : ms) :
  cancellation_shaped e ->
  isAbortLikeError (Obj e) = true /\
  (Strict.on_error (Obj e) = NoBody 204 /\
   Cached.on_error (Obj e) = imageFallbackResponse "Image request cancelled" /\
   status_of (NoBody 204) = 204 /\
   status_of (imageFallbackResponse "Image request cancelled") = 200) /\
  (accepted req parsed ->
   fails_after (Obj e) d (upstream w k) ->
   k = 0 \/ (k = 1 /\ exists err0 d0, fails_after err0 d0 (upstream w 0)) ->
   (k = 0 ->
    (exists t, Strict.outcome (Strict.GET req w) = Returns t (NoBody 204)) /\
    length (Strict.calls (Strict.GET req w)) <= 1) /\
   (Cached.lookup_fresh cache (href parsed) (date_now w 0%N) = None ->
    exists t,
      Cached.outcome (Cached.GET cache req w)
      = Returns t (imageFallbackResponse "Image request cancelled") /\
      length (Cached.calls (Cached.GET cache req w)) <= S k /\
      Cached.cache_after (Cached.GET cache req w) = cache)).
Proof.
  intros Hs. apply isAbortLikeError_shapes in Hs as He.
  split; [exact He|]. split.
  - unfold Strict.on_error, Cached.on_error. rewrite He. repeat split.
  - intros Ha Hf Hk. split.
    + intros ->. split.
      * exact (strict_abort_like _ _ _ _ _ Ha Hf He).
      * apply strict_at_most_one_call.
    + intros Hmiss. exact (cached_abort_like cache req parsed w k _ _ Ha Hmiss Hf He Hk).
Qed.

Lemma cancellation_priority_witness :
  exists t,
    Cached.outcome
      (Cached.GET ∅ (Demo.request Scenario.target)
         (Demo.first_then (Fails 10 Demo.network_error)
            (Fails 20 (Obj Scenario.econnreset))))
    = Returns t (imageFallbackResponse "Image request cancelled") /\
    length (Cached.calls
              (Cached.GET ∅ (Demo.request Scenario.target)
                 (Demo.first_then (Fails 10 Demo.network_error)
                    (Fails 20 (Obj Scenario.econnreset)))))
    <= 2 /\
    Cached.cache_after
      (Cached.GET ∅ (Demo.request Scenario.target)
         (Demo.first_then (Fails 10 Demo.network_error)
            (Fails 20 (Obj Scenario.econnreset))))
    = ∅.
Proof.
  refine (proj2 (proj2 (proj2 (cancellation_priority ∅ (Demo.request Scenario.target)
                                 Scenario.parsed
                                 (Demo.first_then (Fails 10 Demo.network_error)
                                    (Fails 20 (Obj Scenario.econnreset)))
                                 1 Scenario.econnreset 20%N _))
                   (target_accepted None) (fetch_rejects _ 20) _) eq_refl).
  - do 4 right. eexists. split; [reflexivity|]. now left.
  - right. split; [reflexivity|].
    exists Demo.network_error, 10%N. exact (fetch_rejects _ 10).
Defined.

(** C2, as the code has it. In the strict variant the outbound call runs
    under a signal that fires on the inbound abort or after 8 s, whichever
    is first: the handler always answers within 8 s, no call is pending from
    then on, and a signal that fires during the exchange ends it there with
    the 204. In the always-an-image variant the signal is the inbound abort
    alone: when it fires during the first exchange the answer is the
    cancelled placeholder at that time; in general the handler has answered
    before the abort or answers with the cancelled placeholder, at most
    150 ms (the backoff) later, and no call is pending from the abort on;
    without an inbound abort an upstream that never finishes is waited for
    without limit. *)
Theorem cancellation_scope `{Platform} (cache : gmap string Cached.CacheEntry)
    (req : Request) (parsed : URL) (w : World) :
  accepted req parsed ->
  aborted_on_arrival req = false ->
  ((exists t r,
      Strict.outcome (Strict.GET req w) = Returns t r /\ (t <= 8000)%N) /\
   (forall c t,
      In c (Strict.calls (Strict.GET req w)) -> (8000 <= t)%N -> ~ pending_at c t) /\
   (forall s,
      earliest (req_abort_at req) (Some 8000%N) = Some s ->
      in_flight_at (upstream w 0) s ->
      Strict.GET req w
      = {| Strict.outcome := Returns s (NoBody 204);
           Strict.calls :=
             [{| call_url := href parsed; call_start := 0; call_over := Some s |}] |})) /\
  (Cached.lookup_fresh cache (href parsed) (date_now w 0%N) = None ->
   (forall a,
      req_abort_at req = Some a ->
      in_flight_at (upstream w 0) a ->
      Cached.GET cache req w
      = {| Cached.outcome := Returns a (imageFallbackResponse "Image request cancelled");
           Cached.calls :=
             [{| call_url := href parsed; call_start := 0; call_over := Some a |}];
           Cached.cache_after := cache |}) /\
   (forall a,
      req_abort_at req = Some a ->
      (exists t r,
         Cached.outcome (Cached.GET cache req w) = Returns t r /\
         ((t < a)%N \/ r = imageFallbackResponse "Image request cancelled") /\
         (t <= a + 150)%N) /\
      (forall c t,
         In c (Cached.calls (Cached.GET cache req w)) -> (a <= t)%N ->
         ~ pending_at c t)) /\
   (req_abort_at req = None ->
    alone (upstream w 0) = None ->
    Cached.GET cache req w
    = {| Cached.outcome := Never;
         Cached.calls :=
           [{| call_url := href parsed; call_start := 0; call_over := None |}];
         Cached.cache_after := cache |})).
Proof.
  intros Ha Hn. split; [split; [|split]|].
  - apply strict_returns.
  - intros c t Hc Ht.
    destruct (strict_calls_over _ _ _ Hc) as (e & He & Hle & _).
    apply (not_pending_after _ _ _ He). unfold Strict.timeout in Hle. lia.
  - intros s Hs Hf. exact (strict_signal_cuts _ _ _ _ Ha Hn Hs Hf).
  - intros Hm. split; [|split].
    + intros a Hs Hf. apply (cached_signal_cuts _ _ _ _ _ Ha Hm Hs); [|exact Hf].
      intros ->. unfold aborted_on_arrival in Hn. rewrite Hs in Hn. discriminate.
    + intros a Hs. exact (cached_abort_bound _ _ _ _ _ Ha Hm Hs).
    + intros Hs Hf. exact (cached_never _ _ _ _ Ha Hm Hs Hf).
Qed.

Lemma cancellation_scope_witness :
  Strict.GET (Demo.request Scenario.target) (Demo.always Stalls)
  = {| Strict.outcome := Returns 8000 (NoBody 204);
       Strict.calls :=
         [{| call_url := Scenario.target; call_start := 0; call_over := Some 8000%N |}] |}.
Proof.
  refine (proj2 (proj2 (proj1 (cancellation_scope ∅ (Demo.request Scenario.target)
                                 Scenario.parsed (Demo.always Stalls)
                                 (target_accepted None) eq_refl)))
            8000%N eq_refl I).
Defined.

(** C2 as stated fails for the always-an-image variant: no timer is set
    there, so with an upstream that does not answer and a caller that does
    not abort, the call is still pending after a minute and the handler has
    not answered. *)
Lemma cached_has_no_timeout :
  req_abort_at (Demo.request Scenario.target) = None /\
  Cached.GET ∅ (Demo.request Scenario.target) (Demo.always Stalls)
  = {| Cached.outcome := Never;
       Cached.calls :=
         [{| call_url := Scenario.target; call_start := 0; call_over := None |}];
       Cached.cache_after := ∅ |} /\
  pending_at {| call_url := Scenario.target; call_start := 0; call_over := None |}
             60000.
Proof.
  split; [reflexivity|]. split; [reflexivity|].
  unfold pending_at. simpl. split; [lia | exact I].
Qed.

(** C1, as the code has it. The always-an-image variant retries a failed
    outbound call (one that is not abort-like) exactly once, 150 ms after
    the failure: a retry that delivers a page with a well-formed preview
    image gives the 302, a second such failure gives the generic
    placeholder, and no request makes more than two calls. The strict
    variant has no retry: it makes at most one call, and its failure gives
    the 500 response. *)
Theorem retry_once `{Platform} (cache : gmap string Cached.CacheEntry)
    (req : Request) (parsed : URL) (w : World) (err0 : Thrown) (d0 : ms) :
  accepted req parsed ->
  req_abort_at req = None ->
  fails_after err0 d0 (upstream w 0) ->
  isAbortLikeError err0 = false ->
  (Cached.lookup_fresh cache (href parsed) (date_now w 0%N) = None ->
   (forall html d1 image u,
      answers_after html d1 (upstream w 1) ->
      extractOgImage html = Some image ->
      url_parse image = Some u ->
      Cached.GET cache req w
      = {| Cached.outcome := Returns (d0 + 150 + d1)%N (Redirect 302 (href u));
           Cached.calls :=
             [{| call_url := href parsed; call_start := 0; call_over := Some d0 |};
              {| call_url := href parsed; call_start := d0 + 150;
                 call_over := Some (d0 + 150 + d1)%N |}];
           Cached.cache_after :=
             <[href parsed := {| Cached.img := image;
                                 Cached.ts := date_now w (d0 + 150 + d1)%N |}]> cache |}) /\
   (forall err1 d1,
      fails_after err1 d1 (upstream w 1) ->
      isAbortLikeError err1 = false ->
      Cached.GET cache req w
      = {| Cached.outcome :=
             Returns (d0 + 150 + d1)%N (imageFallbackResponse "Preview unavailable");
           Cached.calls :=
             [{| call_url := href parsed; call_start := 0; call_over := Some d0 |};
              {| call_url := href parsed; call_start := d0 + 150;
                 call_over := Some (d0 + 150 + d1)%N |}];
           Cached.cache_after := cache |})) /\
  length (Cached.calls (Cached.GET cache req w)) <= 2 /\
  ((d0 < 8000)%N ->
   Strict.GET req w
   = {| Strict.outcome := Returns d0 (Json 500 "Unexpected error fetching postimg");
        Strict.calls :=
          [{| call_url := href parsed; call_start := 0; call_over := Some d0 |}] |}) /\
  length (Strict.calls (Strict.GET req w)) <= 1.
Proof.
  intros Ha Hn Hf0 He0. split; [|split; [|split]].
  - intros Hm. split.
    + intros html d1 image u Hf1 Hx Hu.
      exact (cached_retry_success _ _ _ _ _ _ _ _ _ _ Ha Hm Hn Hf0 He0 Hf1 Hx Hu).
    + intros err1 d1 Hf1 He1.
      exact (cached_retry_failure _ _ _ _ _ _ _ _ Ha Hm Hn Hf0 He0 Hf1 He1).
  - apply cached_at_most_two_calls.
  - intros Hd. exact (strict_transient_failure _ _ _ _ _ Ha Hn Hf0 Hd He0).
  - apply strict_at_most_one_call.
Qed.

Lemma retry_once_witness :
  Cached.GET ∅ (Demo.request Scenario.target)
    (Demo.first_then (Fails 10 Demo.network_error) Scenario.good)
  = {| Cached.outcome := Returns 205 (Redirect 302 Scenario.image);
       Cached.calls :=
         [{| call_url := Scenario.target; call_start := 0; call_over := Some 10%N |};
          {| call_url := Scenario.target; call_start := 160; call_over := Some 205%N |}];
       Cached.cache_after :=
         {[ Scenario.target := {| Cached.img := Scenario.image;
                                  Cached.ts := 1700000000205 |} ]} |}.
Proof.
  refine (proj1 (proj1 (retry_once ∅ (Demo.request Scenario.target) Scenario.parsed
                          (Demo.first_then (Fails 10 Demo.network_error) Scenario.good)
                          Demo.network_error 10%N
                          (target_accepted None) eq_refl
                          (fetch_rejects _ 10) eq_refl) eq_refl)
            (Demo.page Scenario.image) 45%N Scenario.image
            {| hostname := "i.postimg.cc"; href := Scenario.image |}
            (answers _ 40 5) eq_refl eq_refl).
Defined.

(** C1 as stated fails for the strict variant: the first call fails with a
    network error, a second call would have delivered the page, and the
    answer is the 500 after a single call. *)
Lemma strict_does_not_retry :
  isAbortLikeError Demo.network_error = false /\
  Strict.GET (Demo.request Scenario.target)
    (Demo.first_then (Fails 10 Demo.network_error) Scenario.good)
  = {| Strict.outcome := Returns 10 (Json 500 "Unexpected error fetching postimg");
       Strict.calls :=
         [{| call_url := Scenario.target; call_start := 0; call_over := Some 10%N |}] |}.
Proof. split; reflexivity. Qed.

(** C5, as the code has it. For an accepted request: an entry younger than
    24 h whose image is an absolute URL is answered with the 302 to it and
    no outbound call; an entry of 24 h or more is not used and not removed
    (it stays until a resolution overwrites it), and a fetch is made at once
    unless the request is already aborted on arrival, which gets the
    cancelled placeholder without a fetch; and a pipeline that answers with
    the 302 has stored the extracted image under the target with the time
    of the answer. *)
Theorem cache_policy `{Platform} (cache : gmap string Cached.CacheEntry)
    (req : Request) (parsed : URL) (w : World) :
  accepted req parsed ->
  (forall cached u,
     cache !! href parsed = Some cached ->
     (date_now w 0%N - Cached.ts cached < 1000 * 60 * 60 * 24)%Z ->
     url_parse (Cached.img cached) = Some u ->
     Cached.GET cache req w
     = {| Cached.outcome := Returns 0%N (Redirect 302 (href u));
          Cached.calls := [];
          Cached.cache_after := cache |}) /\
  (forall cached,
     cache !! href parsed = Some cached ->
     (1000 * 60 * 60 * 24 <= date_now w 0%N - Cached.ts cached)%Z ->
     (aborted_on_arrival req = false ->
      exists over cs,
        Cached.calls (Cached.GET cache req w)
        = {| call_url := href parsed; call_start := 0; call_over := over |} :: cs) /\
     (aborted_on_arrival req = true ->
      Cached.GET cache req w
      = {| Cached.outcome := Returns 0%N (imageFallbackResponse "Image request cancelled");
           Cached.calls := [];
           Cached.cache_after := cache |}) /\
     (Cached.cache_after (Cached.GET cache req w) !! href parsed = Some cached \/
      exists image t,
        Cached.cache_after (Cached.GET cache req w) !! href parsed
        = Some {| Cached.img := image; Cached.ts := date_now w t |})) /\
  (forall t st loc,
     Cached.lookup_fresh cache (href parsed) (date_now w 0%N) = None ->
     Cached.outcome (Cached.GET cache req w) = Returns t (Redirect st loc) ->
     exists image u,
       url_parse image = Some u /\ loc = href u /\ st = 302 /\
       Cached.cache_after (Cached.GET cache req w) !! href parsed
       = Some {| Cached.img := image; Cached.ts := date_now w t |}).
Proof.
  intros Ha. split; [|split].
  - intros cached u Hc Ht Hu. exact (cached_hit _ _ _ _ _ _ Ha Hc Ht Hu).
  - intros cached Hc Ht.
    pose proof (lookup_fresh_expired _ _ _ _ Hc Ht) as Hm.
    split; [|split].
    + intros Hn. exact (cached_miss_fetches _ _ _ _ Ha Hm Hn).
    + intros Hn. exact (cached_miss_aborted _ _ _ _ Ha Hm Hn).
    + destruct (cached_cache_after cache req w) as [-> | (p' & image & t & Ha' & ->)].
      * now left.
      * right. rewrite (accepted_unique _ _ _ Ha' Ha).
        exists image, t. apply lookup_insert_eq.
  - intros t st loc Hm. rewrite (cached_accepted _ _ _ _ Ha), Hm. intros Ho.
    destruct (pipeline_redirect _ _ _ _ _ _ _ Ho) as (image & u & Hu & Hl & Hs & ->).
    exists image, u. repeat split; auto. apply lookup_insert_eq.
Qed.

Lemma cache_policy_witness :
  Cached.GET {[ Scenario.target := {| Cached.img := Scenario.image;
                                      Cached.ts := 1699999990000 |} ]}
    (Demo.request Scenario.target) (Demo.always Stalls)
  = {| Cached.outcome := Returns 0%N (Redirect 302 Scenario.image);
       Cached.calls := [];
       Cached.cache_after :=
         {[ Scenario.target := {| Cached.img := Scenario.image;
                                  Cached.ts := 1699999990000 |} ]} |}.
Proof.
  refine (proj1 (cache_policy
                   {[ Scenario.target := {| Cached.img := Scenario.image;
                                            Cached.ts := 1699999990000 |} ]}
                   (Demo.request Scenario.target) Scenario.parsed (Demo.always Stalls)
                   (target_accepted None))
            {| Cached.img := Scenario.image; Cached.ts := 1699999990000 |}
            {| hostname := "i.postimg.cc"; href := Scenario.image |}
            eq_refl _ eq_refl).
  simpl. lia.
Defined.

(** C5 as stated fails: the entry is older than 24 h, the request is
    already aborted when it arrives, and no fetch is made. *)
Lemma expired_entry_without_fetch :
  Scenario.old_cache !! Scenario.target
  = Some {| Cached.img := Scenario.image; Cached.ts := 0 |} /\
  (Cached.CACHE_TTL_MS
   <= date_now (Demo.always Scenario.good) 0%N - 0)%Z /\
  Cached.GET Scenario.old_cache
    {| req_url := Some Scenario.target; req_abort_at := Some 0%N |}
    (Demo.always Scenario.good)
  = {| Cached.outcome := Returns 0%N (imageFallbackResponse "Image request cancelled");
       Cached.calls := [];
       Cached.cache_after := Scenario.old_cache |}.
Proof.
  split; [reflexivity|]. split; [|reflexivity].
  unfold Cached.CACHE_TTL_MS. simpl. lia.
Qed.

(** C8. The always-an-image handler lets an exception escape. A page whose
    preview image is the relative reference [/x.jpg] is answered with the
    generic placeholder, the redirect having thrown inside the [try], but
    the entry has been stored before; the same request a minute later finds
    it, builds the redirect outside the [try], and the error leaves the
    handler. *)
Theorem cache_hit_redirect_escapes :
  Cached.GET ∅ (Demo.request Scenario.target) (Demo.always Scenario.relative)
  = {| Cached.outcome := Returns 45 (imageFallbackResponse "Preview unavailable");
       Cached.calls :=
         [{| call_url := Scenario.target; call_start := 0; call_over := Some 45%N |}];
       Cached.cache_after :=
         {[ Scenario.target := {| Cached.img := "/x.jpg"; Cached.ts := 1700000000045 |} ]} |} /\
  Cached.GET
    {[ Scenario.target := {| Cached.img := "/x.jpg"; Cached.ts := 1700000000045 |} ]}
    (Demo.request Scenario.target)
    (Demo.a_minute_later (Demo.always Scenario.relative))
  = {| Cached.outcome := Throws 0%N (Obj (Demo.malformed "/x.jpg"));
       Cached.calls := [];
       Cached.cache_after :=
         {[ Scenario.target := {| Cached.img := "/x.jpg"; Cached.ts := 1700000000045 |} ]} |}.
Proof. split; reflexivity. Qed.

(** C10. The cache is looked up before the inbound abort is checked: a
    request already aborted on arrival that finds a fresh entry gets what
    the redirect to the cached image gives, never the cancelled placeholder,
    and makes no call. That is the 302 when the cached image is an absolute
    URL; when it is not, the redirect throws and the error leaves the
    handler. *)
Theorem cache_lookup_precedes_abort_check `{Platform}
    (cache : gmap string Cached.CacheEntry) (req : Request) (parsed : URL)
    (w : World) (cached : Cached.CacheEntry) :
  accepted req parsed ->
  aborted_on_arrival req = true ->
  cache !! href parsed = Some cached ->
  (date_now w 0%N - Cached.ts cached < 1000 * 60 * 60 * 24)%Z ->
  (forall u,
     url_parse (Cached.img cached) = Some u ->
     Cached.outcome (Cached.GET cache req w) = Returns 0%N (Redirect 302 (href u))) /\
  (url_parse (Cached.img cached) = None ->
   Cached.outcome (Cached.GET cache req w)
   = Throws 0%N (Obj (redirect_error (Cached.img cached)))) /\
  (forall t,
     Cached.outcome (Cached.GET cache req w)
     <> Returns t (imageFallbackResponse "Image request cancelled")) /\
  Cached.calls (Cached.GET cache req w) = [].
Proof.
  intros Ha Hn Hc Ht. rewrite (cached_accepted _ _ _ _ Ha).
  unfold Cached.lookup_fresh. rewrite Hc.
  destruct (Z.ltb_spec (date_now w 0%N - Cached.ts cached) Cached.CACHE_TTL_MS);
    [|unfold Cached.CACHE_TTL_MS in *; lia].
  unfold NextResponse_redirect.
  destruct (url_parse (Cached.img cached)) as [u|]; simpl; repeat split;
    try discriminate; try reflexivity.
  now intros u' [= <-].
Qed.

Lemma cache_lookup_precedes_abort_check_witness :
  Cached.outcome
    (Cached.GET
       {[ Scenario.target := {| Cached.img := "/x.jpg"; Cached.ts := 1700000000045 |} ]}
       {| req_url := Some Scenario.target; req_abort_at := Some 0%N |}
       (Demo.a_minute_later (Demo.always Scenario.relative)))
  = Throws 0%N (Obj (Demo.malformed "/x.jpg")).
Proof.
  refine (proj1 (proj2 (cache_lookup_precedes_abort_check
                          {[ Scenario.target := {| Cached.img := "/x.jpg";
                                                   Cached.ts := 1700000000045 |} ]}
                          {| req_url := Some Scenario.target; req_abort_at := Some 0%N |}
                          Scenario.parsed
                          (Demo.a_minute_later (Demo.always Scenario.relative))
                          {| Cached.img := "/x.jpg"; Cached.ts := 1700000000045 |}
                          (target_accepted (Some 0%N)) eq_refl eq_refl _))
            eq_refl).
  simpl. lia.
Defined.

(** * Further properties of the code *)

(** ** An exchange that is over before any signal *)

#[local] Arguments isAbortLikeError : simpl never.

Section Undisturbed.
Context `{Platform}.

Lemma under_signal_quiet {A} (signal : option ms) (start : ms) (p : Settled A) :
  match p with
  | Fulfilled t _ | Rejected t _ => (start <= t)%N /\ quiet_until signal t
  | Unsettled => False
  end ->
  under_signal signal start p = p.
Proof.
  destruct signal as [a|]; [|reflexivity]. intros Hp.
  apply under_signal_before. destruct p; simpl in *; lia.
Qed.

Lemma quiet_until_le (signal : option ms) (t t' : ms) :
  quiet_until signal t -> (t' <= t)%N -> quiet_until signal t'.
Proof. destruct signal; simpl; lia. Qed.

Lemma extract_plain (html image : string) :
  extractOgImage html = Some image -> plain_value image.
Proof.
  intros Hx.
  apply ExtractFacts.extract_sound in Hx
    as (pre & s & _ & [(o & mid & r & post & _ & _ & _ & _ & Hp)
                      | (o & mid & r & post & _ & Hp & _)]); exact Hp.
Qed.

Lemma extract_html_truthy (html image : string) :
  extractOgImage html = Some image -> Str.truthy html = true.
Proof. destruct html; [discriminate | reflexivity]. Qed.

(** [work] on an upstream that delivers a page in time. *)
Lemma strict_work_answers (parsed : URL) (signal : option ms) (w : World)
    (html : string) (d : ms) :
  answers_after html d (upstream w 0) ->
  quiet_until signal d ->
  Strict.work parsed signal w
  = (Fulfilled d (Strict.extract_and_redirect html), [call_to parsed 0 (Some d)]).
Proof.
  intros Hf Hq. inversion Hf as [lat lat' Hd Hu]; subst.
  unfold Strict.work, fetch. rewrite <- Hu.
  rewrite under_signal_quiet
    by (split; [lia | apply (quiet_until_le _ _ _ Hq); lia]).
  simpl. unfold text.
  rewrite under_signal_quiet by (split; [lia | exact Hq]).
  reflexivity.
Qed.

(** [work] on an upstream that answers with a status outside 200-299. *)
Lemma strict_work_not_ok (parsed : URL) (signal : option ms) (w : World)
    (lat : ms) (body : BodyBehaviour) :
  upstream w 0 = Responds lat false body ->
  quiet_until signal lat ->
  Strict.work parsed signal w
  = (Fulfilled lat (Json 502 "Failed to fetch postimg page"),
     [call_to parsed 0 (Some lat)]).
Proof.
  intros Hu Hq. unfold Strict.work, fetch. rewrite Hu.
  rewrite under_signal_quiet by (split; [lia | exact Hq]). reflexivity.
Qed.

(** The race is won by [work] when it is over before the timer and before
    the inbound abort. *)
Lemma strict_pipeline_quiet (req : Request) (parsed : URL) (w : World)
    (d : ms) (r : Response) (cs : list Call) :
  accepted req parsed ->
  (d < 8000)%N ->
  quiet_until (req_abort_at req) d ->
  Strict.work parsed (earliest (req_abort_at req) (Some Strict.timeout)) w
  = (Fulfilled d r, cs) ->
  Strict.GET req w = {| Strict.outcome := Returns d r; Strict.calls := cs |}.
Proof.
  intros Ha Hd Hq Hw. rewrite (strict_accepted _ _ _ Ha).
  unfold aborted_on_arrival, Strict.pipeline. rewrite Hw.
  destruct (req_abort_at req) as [a|]; simpl in *; [|reflexivity].
  destruct a as [|p]; [lia|]. unfold race. simpl.
  destruct (N.leb_spec (N.pos p) d); [lia | reflexivity].
Qed.

Lemma quiet_earliest (a : option ms) (d : ms) :
  (d < 8000)%N -> quiet_until a d ->
  quiet_until (earliest a (Some Strict.timeout)) d.
Proof. unfold Strict.timeout. destruct a; simpl; lia. Qed.

(** One attempt of the always-an-image loop, undisturbed. *)
Lemma attempt_answers (parsed : URL) (signal : option ms) (w : World)
    (n : nat) (start d : ms) (html : string) :
  answers_after html d (upstream w n) ->
  quiet_until signal (start + d) ->
  Cached.attempt parsed signal w n start
  = (Some ((start + d)%N, inl (Some html)), call_to parsed start (Some (start + d)%N)).
Proof.
  intros Hf Hq. inversion Hf as [lat lat' Hd Hu]; subst.
  unfold Cached.attempt, fetch. rewrite <- Hu.
  rewrite under_signal_quiet
    by (split; [lia | apply (quiet_until_le _ _ _ Hq); lia]).
  simpl. unfold text.
  rewrite under_signal_quiet by (split; [lia | rewrite <- N.add_assoc; exact Hq]).
  now rewrite N.add_assoc.
Qed.

Lemma attempt_not_ok (parsed : URL) (signal : option ms) (w : World)
    (n : nat) (start lat : ms) (body : BodyBehaviour) :
  upstream w n = Responds lat false body ->
  quiet_until signal (start + lat) ->
  Cached.attempt parsed signal w n start
  = (Some ((start + lat)%N, inl None), call_to parsed start (Some (start + lat)%N)).
Proof.
  intros Hu Hq. unfold Cached.attempt, fetch. rewrite Hu.
  rewrite under_signal_quiet by (split; [lia | exact Hq]). reflexivity.
Qed.

Lemma attempt_fails_quiet (parsed : URL) (signal : option ms) (w : World)
    (n : nat) (start d : ms) (err : Thrown) :
  fails_after err d (upstream w n) ->
  quiet_until signal (start + d) ->
  Cached.attempt parsed signal w n start
  = (Some ((start + d)%N, inr err), call_to parsed start (Some (start + d)%N)).
Proof.
  intros Hf Hq.
  inversion Hf as [lat Hd Hu | lat lat' Hd Hu]; subst;
    unfold Cached.attempt, fetch; rewrite <- Hu.
  - rewrite under_signal_quiet by (split; [lia | exact Hq]). reflexivity.
  - rewrite under_signal_quiet
      by (split; [lia | apply (quiet_until_le _ _ _ Hq); lia]).
    simpl. unfold text.
    rewrite under_signal_quiet by (split; [lia | rewrite <- N.add_assoc; exact Hq]).
    now rewrite N.add_assoc.
Qed.

Lemma quiet_not_on_arrival (req : Request) (d : ms) :
  quiet_until (req_abort_at req) d -> aborted_on_arrival req = false.
Proof.
  unfold aborted_on_arrival. destruct (req_abort_at req) as [[|p]|]; simpl;
    [lia | reflexivity | reflexivity].
Qed.

End Undisturbed.

(** ** The outcomes of the pipeline *)

(** Success. An upstream that delivers, before the timer and before any
    inbound abort, a page whose preview image is an absolute URL is answered
    with the 302 to it after a single call; the always-an-image variant also
    stores the image, stamped with the time of the answer.  An inbound abort
    that comes later changes nothing. *)
Theorem resolution_success `{Platform} (cache : gmap string Cached.CacheEntry)
    (req : Request) (parsed : URL) (w : World) (html image : string) (u : URL)
    (d : ms) :
  accepted req parsed ->
  answers_after html d (upstream w 0) ->
  quiet_until (req_abort_at req) d ->
  extractOgImage html = Some image ->
  url_parse image = Some u ->
  ((d < 8000)%N ->
   Strict.GET req w
   = {| Strict.outcome := Returns d (Redirect 302 (href u));
        Strict.calls := [call_to parsed 0 (Some d)] |}) /\
  (Cached.lookup_fresh cache (href parsed) (date_now w 0%N) = None ->
   Cached.GET cache req w
   = {| Cached.outcome := Returns d (Redirect 302 (href u));
        Cached.calls := [call_to parsed 0 (Some d)];
        Cached.cache_after :=
          <[href parsed := {| Cached.img := image; Cached.ts := date_now w d |}]> cache |}).
Proof.
  intros Ha Hf Hq Hx Hu.
  destruct (extract_plain _ _ Hx) as [_ Hi].
  pose proof (extract_html_truthy _ _ Hx) as Hh.
  split.
  - intros Hd. apply (strict_pipeline_quiet _ _ _ _ _ _ Ha Hd Hq).
    rewrite (strict_work_answers _ _ _ _ _ Hf (quiet_earliest _ _ Hd Hq)).
    unfold Strict.extract_and_redirect, NextResponse_redirect.
    now rewrite Hx, Hi, Hu.
  - intros Hm. rewrite (cached_accepted _ _ _ _ Ha), Hm.
    unfold Cached.pipeline. rewrite (quiet_not_on_arrival _ _ Hq). simpl.
    rewrite (attempt_answers _ _ _ _ 0 _ _ Hf Hq). simpl.
    unfold Cached.resolve, NextResponse_redirect.
    now rewrite Hh, Hx, Hi, Hu.
Qed.

Lemma resolution_success_witness :
  Strict.GET (Demo.request Scenario.target) (Demo.always Scenario.good)
  = {| Strict.outcome := Returns 45 (Redirect 302 Scenario.image);
       Strict.calls := [call_to Scenario.parsed 0 (Some 45%N)] |}.
Proof.
  refine (proj1 (resolution_success ∅ (Demo.request Scenario.target) Scenario.parsed
                   (Demo.always Scenario.good) (Demo.page Scenario.image)
                   Scenario.image
                   {| hostname := "i.postimg.cc"; href := Scenario.image |} 45%N
                   (target_accepted None) (answers _ 40 5) I eq_refl eq_refl) _).
  reflexivity.
Defined.

(** An upstream status outside 200-299 is final: the body is not read and
    no second call is made.  The strict variant answers 502, the
    always-an-image variant the generic placeholder, and the cache is left
    as it was. *)
Theorem upstream_status_not_retried `{Platform}
    (cache : gmap string Cached.CacheEntry) (req : Request) (parsed : URL)
    (w : World) (lat : ms) (body : BodyBehaviour) :
  accepted req parsed ->
  upstream w 0 = Responds lat false body ->
  quiet_until (req_abort_at req) lat ->
  ((lat < 8000)%N ->
   Strict.GET req w
   = {| Strict.outcome := Returns lat (Json 502 "Failed to fetch postimg page");
        Strict.calls := [call_to parsed 0 (Some lat)] |}) /\
  (Cached.lookup_fresh cache (href parsed) (date_now w 0%N) = None ->
   Cached.GET cache req w
   = {| Cached.outcome := Returns lat (imageFallbackResponse "Preview unavailable");
        Cached.calls := [call_to parsed 0 (Some lat)];
        Cached.cache_after := cache |}).
Proof.
  intros Ha Hu Hq. split.
  - intros Hd. apply (strict_pipeline_quiet _ _ _ _ _ _ Ha Hd Hq).
    exact (strict_work_not_ok _ _ _ _ _ Hu (quiet_earliest _ _ Hd Hq)).
  - intros Hm. rewrite (cached_accepted _ _ _ _ Ha), Hm.
    unfold Cached.pipeline. rewrite (quiet_not_on_arrival _ _ Hq). simpl.
    now rewrite (attempt_not_ok _ _ _ 0 0 _ _ Hu Hq).
Qed.

Lemma upstream_status_not_retried_witness :
  Cached.GET ∅ (Demo.request Scenario.target)
    (Demo.first_then (Responds 30 false BodyStalls) Scenario.good)
  = {| Cached.outcome := Returns 30 (imageFallbackResponse "Preview unavailable");
       Cached.calls := [call_to Scenario.parsed 0 (Some 30%N)];
       Cached.cache_after := ∅ |}.
Proof.
  refine (proj2 (upstream_status_not_retried ∅ (Demo.request Scenario.target)
                   Scenario.parsed
                   (Demo.first_then (Responds 30 false BodyStalls) Scenario.good)
                   30%N BodyStalls (target_accepted None) eq_refl I) eq_refl).
Defined.

(** A page without the preview-image pattern: 404 in the strict variant,
    the generic placeholder in the other; one call, nothing stored. *)
Theorem no_preview_found `{Platform} (cache : gmap string Cached.CacheEntry)
    (req : Request) (parsed : URL) (w : World) (html : string) (d : ms) :
  accepted req parsed ->
  answers_after html d (upstream w 0) ->
  quiet_until (req_abort_at req) d ->
  extractOgImage html = None ->
  ((d < 8000)%N ->
   Strict.GET req w
   = {| Strict.outcome := Returns d (Json 404 "No og:image found");
        Strict.calls := [call_to parsed 0 (Some d)] |}) /\
  (Cached.lookup_fresh cache (href parsed) (date_now w 0%N) = None ->
   Cached.GET cache req w
   = {| Cached.outcome := Returns d (imageFallbackResponse "Preview unavailable");
        Cached.calls := [call_to parsed 0 (Some d)];
        Cached.cache_after := cache |}).
Proof.
  intros Ha Hf Hq Hx. split.
  - intros Hd. apply (strict_pipeline_quiet _ _ _ _ _ _ Ha Hd Hq).
    rewrite (strict_work_answers _ _ _ _ _ Hf (quiet_earliest _ _ Hd Hq)).
    unfold Strict.extract_and_redirect. now rewrite Hx.
  - intros Hm. rewrite (cached_accepted _ _ _ _ Ha), Hm.
    unfold Cached.pipeline. rewrite (quiet_not_on_arrival _ _ Hq). simpl.
    rewrite (attempt_answers _ _ _ _ 0 _ _ Hf Hq). simpl.
    unfold Cached.resolve. rewrite Hx.
    destruct (negb (Str.truthy html)); reflexivity.
Qed.

Lemma no_preview_found_witness :
  Strict.GET (Demo.request Scenario.target)
    (Demo.always (Responds 40 true (BodyText 5 "<html><head></head></html>")))
  = {| Strict.outcome := Returns 45 (Json 404 "No og:image found");
       Strict.calls := [call_to Scenario.parsed 0 (Some 45%N)] |}.
Proof.
  refine (proj1 (no_preview_found ∅ (Demo.request Scenario.target) Scenario.parsed
                   (Demo.always (Responds 40 true (BodyText 5 "<html><head></head></html>")))
                   "<html><head></head></html>" 45%N
                   (target_accepted None) (answers _ 40 5) I eq_refl) _).
  reflexivity.
Defined.

(** A preview image that is not an absolute URL. Building the redirect
    throws; both variants catch it inside their [try] and answer with the
    response of their [catch] for that error. The always-an-image variant
    has by then written the entry: the image is stored although no redirect
    to it went out. *)
Theorem malformed_image `{Platform} (cache : gmap string Cached.CacheEntry)
    (req : Request) (parsed : URL) (w : World) (html image : string) (d : ms) :
  accepted req parsed ->
  answers_after html d (upstream w 0) ->
  quiet_until (req_abort_at req) d ->
  extractOgImage html = Some image ->
  url_parse image = None ->
  ((d < 8000)%N ->
   Strict.outcome (Strict.GET req w)
   = Returns d (if isAbortLikeError (Obj (redirect_error image)) then NoBody 204
                else Json 500 "Unexpected error fetching postimg")) /\
  (Cached.lookup_fresh cache (href parsed) (date_now w 0%N) = None ->
   Cached.outcome (Cached.GET cache req w)
   = Returns d (imageFallbackResponse
                  (if isAbortLikeError (Obj (redirect_error image))
                   then "Image request cancelled" else "Preview unavailable")) /\
   Cached.cache_after (Cached.GET cache req w) !! href parsed
   = Some {| Cached.img := image; Cached.ts := date_now w d |}).
Proof.
  intros Ha Hf Hq Hx Hu.
  destruct (extract_plain _ _ Hx) as [_ Hi].
  pose proof (extract_html_truthy _ _ Hx) as Hh.
  split.
  - intros Hd.
    rewrite (strict_pipeline_quiet _ _ _ d (Strict.extract_and_redirect html)
               [call_to parsed 0 (Some d)] Ha Hd Hq)
      by exact (strict_work_answers _ _ _ _ _ Hf (quiet_earliest _ _ Hd Hq)).
    simpl. unfold Strict.extract_and_redirect, NextResponse_redirect.
    rewrite Hx, Hi, Hu. reflexivity.
  - intros Hm. rewrite (cached_accepted _ _ _ _ Ha), Hm.
    unfold Cached.pipeline. rewrite (quiet_not_on_arrival _ _ Hq). simpl.
    rewrite (attempt_answers _ _ _ _ 0 _ _ Hf Hq). simpl.
    unfold Cached.resolve, NextResponse_redirect.
    rewrite Hh, Hx, Hi, Hu. simpl. split.
    + unfold Cached.on_error, Cached.cancelled, Cached.unavailable.
      now destruct (isAbortLikeError _).
    + apply lookup_insert_eq.
Qed.

Lemma malformed_image_witness :
  Strict.outcome
    (Strict.GET (Demo.request Scenario.target) (Demo.always Scenario.relative))
  = Returns 45 (Json 500 "Unexpected error fetching postimg").
Proof.
  refine (proj1 (malformed_image ∅ (Demo.request Scenario.target) Scenario.parsed
                   (Demo.always Scenario.relative) (Demo.page "/x.jpg") "/x.jpg" 45%N
                   (target_accepted None) (answers _ 40 5) I eq_refl eq_refl) _).
  reflexivity.
Defined.

Lemma under_signal_late {A} (a start : ms) (p : Settled A) :
  (a <= start)%N -> under_signal (Some a) start p = Rejected start AbortError.
Proof.
  intros Hle. unfold under_signal.
  destruct (N.leb_spec a start); [reflexivity | lia].
Qed.

(** The backoff cannot be interrupted. When the inbound abort fires during
    the 150 ms that follow a failed first call, the always-an-image handler
    still waits them out and still issues the second call, which is rejected
    at once; the cancelled placeholder goes out at the end of the backoff. *)
Theorem abort_during_backoff `{Platform} (cache : gmap string Cached.CacheEntry)
    (req : Request) (parsed : URL) (w : World) (err0 : Thrown) (d0 a : ms) :
  accepted req parsed ->
  Cached.lookup_fresh cache (href parsed) (date_now w 0%N) = None ->
  fails_after err0 d0 (upstream w 0) ->
  isAbortLikeError err0 = false ->
  req_abort_at req = Some a ->
  (d0 < a)%N ->
  (a <= d0 + 150)%N ->
  Cached.GET cache req w
  = {| Cached.outcome :=
         Returns (d0 + 150)%N (imageFallbackResponse "Image request cancelled");
       Cached.calls :=
         [call_to parsed 0 (Some d0);
          call_to parsed (d0 + 150) (Some (d0 + 150)%N)];
       Cached.cache_after := cache |}.
Proof.
  intros Ha Hm Hf He Hs Hlt Hle.
  rewrite (cached_accepted _ _ _ _ Ha), Hm.
  unfold Cached.pipeline, aborted_on_arrival. rewrite Hs.
  destruct a as [|p]; [lia|]. simpl.
  rewrite (attempt_fails_quiet _ (Some (N.pos p)) _ 0 0 d0 _ Hf) by (simpl; lia).
  simpl. rewrite He.
  unfold Cached.attempt, fetch.
  rewrite under_signal_late by lia. reflexivity.
Qed.

Lemma abort_during_backoff_witness :
  Cached.GET ∅ {| req_url := Some Scenario.target; req_abort_at := Some 100%N |}
    (Demo.first_then (Fails 10 Demo.network_error) Scenario.good)
  = {| Cached.outcome := Returns 160 (imageFallbackResponse "Image request cancelled");
       Cached.calls :=
         [call_to Scenario.parsed 0 (Some 10%N);
          call_to Scenario.parsed 160 (Some 160%N)];
       Cached.cache_after := ∅ |}.
Proof.
  refine (abort_during_backoff ∅
            {| req_url := Some Scenario.target; req_abort_at := Some 100%N |}
            Scenario.parsed
            (Demo.first_then (Fails 10 Demo.network_error) Scenario.good)
            Demo.network_error 10%N 100%N
            (target_accepted _) eq_refl (fetch_rejects _ 10) eq_refl eq_refl _ _);
    lia.
Defined.

(** ** The responses a handler can give *)

Section Responses.
Context `{Platform}.

Lemma strict_on_error_cases (err : Thrown) :
  Strict.on_error err = NoBody 204 \/
  Strict.on_error err = Json 500 "Unexpected error fetching postimg".
Proof. unfold Strict.on_error. destruct (isAbortLikeError err); auto. Qed.

Lemma strict_work_response (parsed : URL) (signal : option ms) (w : World)
    (t : ms) (r : Response) (cs : list Call) :
  Strict.work parsed signal w = (Fulfilled t r, cs) ->
  In r [NoBody 204;
        Json 502 "Failed to fetch postimg page";
        Json 404 "No og:image found";
        Json 500 "Unexpected error fetching postimg"] \/
  exists loc, r = Redirect 302 loc.
Proof.
  unfold Strict.work.
  destruct (fetch w signal 0 0) as [t0 [ok body]|t0 err|]; [| |discriminate].
  - destruct ok; simpl; [|intros [= _ <- _]; left; simpl; auto 12].
    destruct (text signal body t0) as [t1 html|t1 err|]; [| |discriminate].
    + intros [= _ <- _]. unfold Strict.extract_and_redirect.
      destruct (extractOgImage html) as [image|]; [|left; simpl; auto 12].
      destruct (negb (Str.truthy image)); [left; simpl; auto 12|].
      unfold NextResponse_redirect. destruct (url_parse image) as [u|]; [eauto|].
      left. destruct (strict_on_error_cases (Obj (redirect_error image))) as [-> | ->];
        simpl; auto 12.
    + intros [= _ <- _]. left.
      destruct (isAbortLikeError err); [simpl; auto 12|].
      destruct (strict_on_error_cases err) as [-> | ->]; simpl; auto 12.
  - intros [= _ <- _]. left.
    destruct (strict_on_error_cases err) as [-> | ->]; simpl; auto 12.
Qed.

Lemma cached_on_error_cases (err : Thrown) :
  Cached.on_error err = imageFallbackResponse "Image request cancelled" \/
  Cached.on_error err = imageFallbackResponse "Preview unavailable".
Proof. unfold Cached.on_error. destruct (isAbortLikeError err); auto. Qed.

Lemma cached_never_inv (cache : gmap string Cached.CacheEntry) (req : Request)
    (w : World) :
  Cached.outcome (Cached.GET cache req w) = Never ->
  exists parsed,
    accepted req parsed /\
    Cached.lookup_fresh cache (href parsed) (date_now w 0%N) = None.
Proof.
  unfold Cached.GET, accepted.
  destruct (req_url req) as [url|]; [|discriminate].
  destruct (Str.truthy url); [|discriminate]. simpl.
  destruct (url_parse url) as [parsed|] eqn:Hp; [|discriminate].
  destruct (String.eqb_spec (hostname parsed) "postimg.cc") as [Hh|Hh];
    [|discriminate]. simpl.
  destruct (Cached.lookup_fresh _ _ _) as [cached|] eqn:Hc.
  - destruct (NextResponse_redirect _ _); discriminate.
  - intros _. exists parsed. split; [|exact Hc]. exists url. auto.
Qed.

End Responses.

(** The strict handler always answers, and with one of eight responses:
    the three 400s of the input checks, 204, 502, 404, 500, or a 302. It
    never throws and is never left waiting. *)
Theorem strict_responses `{Platform} (req : Request) (w : World) :
  exists t r,
    Strict.outcome (Strict.GET req w) = Returns t r /\
    (In r [Json 400 "Missing url";
           Json 400 "Invalid url";
           Json 400 "Only postimg.cc is allowed";
           NoBody 204;
           Json 502 "Failed to fetch postimg page";
           Json 404 "No og:image found";
           Json 500 "Unexpected error fetching postimg"] \/
     exists loc, r = Redirect 302 loc).
Proof.
  assert (Hz : forall r,
             In r [Json 400 "Missing url"; Json 400 "Invalid url";
                   Json 400 "Only postimg.cc is allowed"; NoBody 204] ->
             exists t r',
               Strict.outcome (Strict.respond r) = Returns t r' /\
               (In r' [Json 400 "Missing url";
                       Json 400 "Invalid url";
                       Json 400 "Only postimg.cc is allowed";
                       NoBody 204;
                       Json 502 "Failed to fetch postimg page";
                       Json 404 "No og:image found";
                       Json 500 "Unexpected error fetching postimg"] \/
                exists loc, r' = Redirect 302 loc)).
  { intros r Hr. exists 0%N, r. split; [reflexivity|]. left.
    simpl in *. intuition. }
  unfold Strict.GET.
  destruct (req_url req) as [url|]; [|apply Hz; simpl; auto 12].
  destruct (negb (Str.truthy url)); [apply Hz; simpl; auto 12|].
  destruct (url_parse url) as [parsed|]; [|apply Hz; simpl; auto 12].
  destruct (negb _); [apply Hz; simpl; auto 12|].
  destruct (aborted_on_arrival req); [apply Hz; simpl; auto 12|].
  unfold Strict.pipeline.
  destruct (earliest_timeout (req_abort_at req)) as (s & -> & _ & _).
  destruct (strict_work_bound parsed s w) as (t & r & Hw & _).
  rewrite Hw. simpl.
  assert (Hr : In r [Json 400 "Missing url";
                     Json 400 "Invalid url";
                     Json 400 "Only postimg.cc is allowed";
                     NoBody 204;
                     Json 502 "Failed to fetch postimg page";
                     Json 404 "No og:image found";
                     Json 500 "Unexpected error fetching postimg"] \/
               exists loc, r = Redirect 302 loc).
  { destruct (strict_work_response _ _ _ _ _ _ Hw) as [Hr | Hr]; [left | now right].
    simpl in *. intuition. }
  destruct (req_abort_at req) as [a|]; unfold race; simpl.
  - destruct (a <=? t)%N; eexists _, _; (split; [reflexivity|]); auto.
    left. simpl. auto 12.
  - eexists _, _. split; [reflexivity | exact Hr].
Qed.

(** The always-an-image handler, when it answers, answers with the 200 SVG
    placeholder under one of five fixed labels, or with a 302: no label is
    taken from the request or from the upstream. It is left waiting only by
    a request whose caller never aborts, and it throws only on a fresh cache
    entry whose image is not an absolute URL. *)
Theorem cached_responses `{Platform} (cache : gmap string Cached.CacheEntry)
    (req : Request) (w : World) :
  match Cached.outcome (Cached.GET cache req w) with
  | Returns t r =>
      In r (map imageFallbackResponse
              ["Missing image url"; "Invalid image url";
               "Only postimg.cc is allowed"; "Image request cancelled";
               "Preview unavailable"]) \/
      exists loc, r = Redirect 302 loc
  | Throws t err =>
      t = 0%N /\
      exists parsed cached,
        accepted req parsed /\
        Cached.lookup_fresh cache (href parsed) (date_now w 0%N) = Some cached /\
        url_parse (Cached.img cached) = None
  | Never => req_abort_at req = None
  end.
Proof.
  destruct (Cached.outcome (Cached.GET cache req w)) as [t r|t err|] eqn:Ho.
  - revert Ho. unfold Cached.GET.
    destruct (req_url req) as [url|]; [|intros [= _ <-]; left; simpl; auto 12].
    destruct (negb (Str.truthy url)); [intros [= _ <-]; left; simpl; auto 12|].
    destruct (url_parse url) as [parsed|]; [|intros [= _ <-]; left; simpl; auto 12].
    destruct (negb _); [intros [= _ <-]; left; simpl; auto 12|].
    destruct (Cached.lookup_fresh _ _ _) as [cached|].
    { unfold NextResponse_redirect.
      destruct (url_parse (Cached.img cached)) as [u|]; [|discriminate].
      intros [= _ <-]. eauto. }
    unfold Cached.pipeline.
    destruct (aborted_on_arrival req); [intros [= _ <-]; left; simpl; auto 12|].
    destruct (Cached.loop parsed (req_abort_at req) w 2 0 0%N) as [e cs] eqn:El.
    destruct e as [t' html|t' r'|t' err|]; simpl; [| | |discriminate].
    + unfold Cached.resolve.
      destruct html as [html|]; [|intros [= _ <-]; left; simpl; auto 12].
      destruct (negb (Str.truthy html)); [intros [= _ <-]; left; simpl; auto 12|].
      destruct (extractOgImage html) as [image|];
        [|intros [= _ <-]; left; simpl; auto 12].
      destruct (negb (Str.truthy image)); [intros [= _ <-]; left; simpl; auto 12|].
      simpl. unfold NextResponse_redirect.
      destruct (url_parse image) as [u|]; intros [= _ <-]; [eauto|].
      left. destruct (cached_on_error_cases (Obj (redirect_error image)))
        as [-> | ->]; simpl; auto 12.
    + apply loop_return in El as ->. intros [= _ <-]. left. simpl. auto 12.
    + intros [= _ <-]. left.
      destruct (cached_on_error_cases err) as [-> | ->]; simpl; auto 12.
  - split.
    + revert Ho. unfold Cached.GET.
      destruct (req_url req) as [url|]; [|discriminate].
      destruct (negb (Str.truthy url)); [discriminate|].
      destruct (url_parse url) as [parsed|]; [|discriminate].
      destruct (negb _); [discriminate|].
      destruct (Cached.lookup_fresh _ _ _) as [cached|].
      { destruct (NextResponse_redirect _ _); [discriminate | now intros [= <- _]]. }
      unfold Cached.pipeline.
      destruct (aborted_on_arrival req); [discriminate|].
      destruct (Cached.loop parsed (req_abort_at req) w 2 0 0%N) as [e cs].
      destruct e as [t' html|t' r'|t' err'|]; simpl; try discriminate.
      unfold Cached.resolve.
      destruct html as [html|]; [|discriminate].
      destruct (negb (Str.truthy html)); [discriminate|].
      destruct (extractOgImage html) as [image|]; [|discriminate].
      destruct (negb (Str.truthy image)); discriminate.
    + exact (cached_throws _ _ _ _ _ Ho).
  - destruct (cached_never_inv _ _ _ Ho) as (parsed & Ha & Hm).
    destruct (req_abort_at req) as [a|] eqn:Hs; [|reflexivity].
    destruct (cached_abort_bound _ _ _ _ _ Ha Hm Hs) as [(t & r & Hr & _) _].
    rewrite Ho in Hr. discriminate.
Qed.

(** ** The cache over time *)

Section CacheOverTime.
Context `{Platform}.

(** What a request can do to the cache: nothing, or one write under its
    target, of a non-empty image without quotes. *)
Lemma cached_write (cache : gmap string Cached.CacheEntry) (req : Request)
    (w : World) :
  Cached.cache_after (Cached.GET cache req w) = cache \/
  exists parsed image t,
    accepted req parsed /\ plain_value image /\
    Cached.cache_after (Cached.GET cache req w)
    = <[href parsed := {| Cached.img := image; Cached.ts := date_now w t |}]> cache.
Proof.
  unfold Cached.GET, accepted.
  destruct (req_url req) as [url|]; [|now left].
  destruct (Str.truthy url); [|now left]. simpl.
  destruct (url_parse url) as [parsed|] eqn:Hp; [|now left].
  destruct (String.eqb_spec (hostname parsed) "postimg.cc") as [Hh|Hh];
    [|now left]. simpl.
  destruct (Cached.lookup_fresh _ _ _) as [cached|].
  { destruct (NextResponse_redirect _ _); now left. }
  unfold Cached.pipeline.
  destruct (aborted_on_arrival req); [now left|].
  destruct (Cached.loop parsed (req_abort_at req) w 2 0 0%N) as [e cs].
  destruct e as [t' html|t' r|t' err|]; try now left.
  unfold Cached.resolve.
  destruct html as [html|]; [|now left].
  destruct (negb (Str.truthy html)); [now left|].
  destruct (extractOgImage html) as [image|] eqn:Hx; [|now left].
  destruct (negb (Str.truthy image)); [now left|].
  right. exists parsed, image, t'. simpl.
  split; [exists url; auto|]. split; [exact (extract_plain _ _ Hx) | reflexivity].
Qed.

Lemma reaches_cache_accepted (req : Request) :
  reaches_cache req = true <-> exists parsed, accepted req parsed.
Proof.
  unfold reaches_cache, accepted. split.
  - destruct (req_url req) as [url|]; [|discriminate].
    destruct (Str.truthy url); [|discriminate]. simpl.
    destruct (url_parse url) as [parsed|] eqn:Hp; [|discriminate].
    intros Hh. apply String.eqb_eq in Hh. exists parsed, url. auto.
  - intros (parsed & url & -> & Hp & Hh).
    rewrite (parsed_truthy _ _ Hp), Hp, Hh. reflexivity.
Qed.

(** A request that does not reach [getCache] is answered without the cache. *)
Lemma rejected_ignores_cache (c1 c2 : gmap string Cached.CacheEntry)
    (req : Request) (w : World) :
  reaches_cache req = false ->
  Cached.outcome (Cached.GET c1 req w) = Cached.outcome (Cached.GET c2 req w) /\
  Cached.calls (Cached.GET c1 req w) = [] /\
  Cached.cache_after (Cached.GET c1 req w) = c1.
Proof.
  unfold reaches_cache, Cached.GET.
  destruct (req_url req) as [url|]; [|auto].
  destruct (Str.truthy url); [|auto]. simpl.
  destruct (url_parse url) as [parsed|]; [|auto].
  destruct (String.eqb (hostname parsed) "postimg.cc"); [discriminate | auto].
Qed.

Lemma handle_entries (g : option (gmap string Cached.CacheEntry))
    (req : Request) (w : World) :
  entries (snd (handle g req w)) = entries g \/
  exists parsed image t,
    accepted req parsed /\ plain_value image /\
    entries (snd (handle g req w))
    = <[href parsed := {| Cached.img := image; Cached.ts := date_now w t |}]>
        (entries g).
Proof.
  unfold handle. destruct (reaches_cache req); [|now left].
  assert (Hg : getCache g = (entries g, Some (entries g)))
    by (destruct g; reflexivity).
  rewrite Hg. simpl. apply cached_write.
Qed.

End CacheOverTime.

(** The frame of the cache. A request changes no entry but the one of its
    own target: every other key, and every key when the request is turned
    down by the input checks, reads after the request as it did before. *)
Theorem cache_frame `{Platform} (cache : gmap string Cached.CacheEntry)
    (req : Request) (w : World) (key : string) :
  (forall parsed, accepted req parsed -> href parsed <> key) ->
  Cached.cache_after (Cached.GET cache req w) !! key = cache !! key.
Proof.
  intros Hk.
  destruct (cached_write cache req w) as [-> | (parsed & image & t & Ha & _ & ->)];
    [reflexivity|].
  apply lookup_insert_ne. exact (Hk _ Ha).
Qed.

Lemma cache_frame_witness :
  Cached.cache_after
    (Cached.GET Scenario.old_cache (Demo.request "https://postimg.cc/other")
       (Demo.always Scenario.good)) !! Scenario.target
  = Some {| Cached.img := Scenario.image; Cached.ts := 0 |}.
Proof.
  refine (cache_frame Scenario.old_cache (Demo.request "https://postimg.cc/other")
            (Demo.always Scenario.good) Scenario.target _).
  intros parsed (url & [= <-] & [= <-] & _). discriminate.
Defined.

(** Nothing is ever evicted. Over any sequence of requests handled one
    after the other on the process-wide map, a key that has an entry keeps
    one: the map only grows. *)
Theorem cache_never_evicts `{Platform} (rs : list (Request * World)) :
  forall (g : option (gmap string Cached.CacheEntry)) (key : string),
    is_Some (entries g !! key) ->
    is_Some (entries (snd (handle_all g rs)) !! key).
Proof.
  induction rs as [|[req w] rs IH]; intros g key Hk; [exact Hk|].
  simpl.
  destruct (handle g req w) as [run g'] eqn:Hh.
  specialize (IH g' key).
  destruct (handle_all g' rs) as [runs g'']. simpl in *. apply IH.
  pose proof (handle_entries g req w) as He. rewrite Hh in He. simpl in He.
  destruct He as [-> | (parsed & image & t & _ & _ & ->)]; [exact Hk|].
  destruct (decide (href parsed = key)) as [<- | Hne].
  - rewrite lookup_insert_eq. eauto.
  - now rewrite lookup_insert_ne.
Qed.

Lemma cache_never_evicts_witness :
  is_Some
    (entries
       (snd (handle_all (Some Scenario.old_cache)
               [(Demo.request "https://postimg.cc/other", Demo.always Scenario.good);
                (Demo.request Scenario.target, Demo.always Stalls)]))
     !! Scenario.target).
Proof.
  refine (cache_never_evicts
            [(Demo.request "https://postimg.cc/other", Demo.always Scenario.good);
             (Demo.request Scenario.target, Demo.always Stalls)]
            (Some Scenario.old_cache) Scenario.target _).
  eexists. reflexivity.
Defined.

(** What the cache holds. From a cold start, after any sequence of
    requests, every key of the process-wide map is the normalized form of a
    URL whose hostname is [postimg.cc], and every image stored is a
    non-empty string without quotes. *)
Theorem cache_holds_allowed_targets `{Platform} (rs : list (Request * World))
    (key : string) (entry : Cached.CacheEntry) :
  entries (snd (handle_all None rs)) !! key = Some entry ->
  (exists url parsed,
     url_parse url = Some parsed /\ hostname parsed = "postimg.cc" /\
     href parsed = key) /\
  Str.truthy (Cached.img entry) = true /\
  Str.all Str.not_quote (Cached.img entry) = true.
Proof.
  set (Q := fun (k : string) (e : Cached.CacheEntry) =>
              (exists url parsed,
                 url_parse url = Some parsed /\ hostname parsed = "postimg.cc" /\
                 href parsed = k) /\
              Str.truthy (Cached.img e) = true /\
              Str.all Str.not_quote (Cached.img e) = true).
  assert (Hall : forall rs g,
             (forall k e, entries g !! k = Some e -> Q k e) ->
             forall k e, entries (snd (handle_all g rs)) !! k = Some e -> Q k e).
  { clear rs key entry. induction rs as [|[req w] rs IH]; intros g Hg; [exact Hg|].
    simpl. destruct (handle g req w) as [run g'] eqn:Hh.
    specialize (IH g').
    destruct (handle_all g' rs) as [runs g'']. simpl in *. apply IH.
    pose proof (handle_entries g req w) as He. rewrite Hh in He. simpl in He.
    destruct He as [-> | (parsed & image & t & Ha & [Hq Ht] & ->)]; [exact Hg|].
    intros k e.
    destruct (decide (href parsed = k)) as [<- | Hne].
    - rewrite lookup_insert_eq. intros [= <-]. split; [|split; assumption].
      destruct Ha as (url & _ & Hp & Hhost). eauto.
    - rewrite lookup_insert_ne by exact Hne. apply Hg. }
  apply (Hall rs None). intros k e. simpl. rewrite lookup_empty. discriminate.
Qed.

Lemma cache_holds_allowed_targets_witness :
  (exists url parsed,
     Demo.parse url = Some parsed /\ hostname parsed = "postimg.cc" /\
     href parsed = Scenario.target) /\
  Str.truthy "/x.jpg" = true /\
  Str.all Str.not_quote "/x.jpg" = true.
Proof.
  refine (cache_holds_allowed_targets
            [(Demo.request "https://evil.example.com/x", Demo.always Scenario.good);
             (Demo.request Scenario.target, Demo.always Scenario.relative)]
            Scenario.target
            {| Cached.img := "/x.jpg"; Cached.ts := 1700000000045 |} _).
  reflexivity.
Defined.

(** Resolution, then a hit. When a request has been answered by the
    pipeline with a 302, a later request for the same target read less than
    24 h after that answer is given the same Location without any outbound
    call, whatever the upstream would do and even if it is already aborted;
    read 24 h or more after it, the entry is passed over and a request that
    is not aborted on arrival goes out to the upstream again. *)
Theorem resolution_then_hit `{Platform} (cache : gmap string Cached.CacheEntry)
    (req1 req2 : Request) (parsed : URL) (w1 w2 : World) (t : ms)
    (loc : string) :
  accepted req1 parsed ->
  accepted req2 parsed ->
  Cached.lookup_fresh cache (href parsed) (date_now w1 0%N) = None ->
  Cached.outcome (Cached.GET cache req1 w1) = Returns t (Redirect 302 loc) ->
  ((date_now w2 0%N - date_now w1 t < 1000 * 60 * 60 * 24)%Z ->
   Cached.GET (Cached.cache_after (Cached.GET cache req1 w1)) req2 w2
   = {| Cached.outcome := Returns 0%N (Redirect 302 loc);
        Cached.calls := [];
        Cached.cache_after := Cached.cache_after (Cached.GET cache req1 w1) |}) /\
  ((1000 * 60 * 60 * 24 <= date_now w2 0%N - date_now w1 t)%Z ->
   aborted_on_arrival req2 = false ->
   exists over cs,
     Cached.calls
       (Cached.GET (Cached.cache_after (Cached.GET cache req1 w1)) req2 w2)
     = call_to parsed 0 over :: cs).
Proof.
  intros Ha1 Ha2 Hm Ho.
  pose proof Ho as Ho'. rewrite (cached_accepted _ _ _ _ Ha1), Hm in Ho'.
  destruct (pipeline_redirect _ _ _ _ _ _ _ Ho') as (image & u & Hu & -> & _ & Hc).
  assert (Hl : Cached.cache_after (Cached.GET cache req1 w1) !! href parsed
               = Some {| Cached.img := image; Cached.ts := date_now w1 t |}).
  { rewrite (cached_accepted _ _ _ _ Ha1), Hm, Hc. apply lookup_insert_eq. }
  split.
  - intros Ht. exact (cached_hit _ _ _ _ _ _ Ha2 Hl Ht Hu).
  - intros Ht Hn. apply (cached_miss_fetches _ _ _ _ Ha2); [|exact Hn].
    exact (lookup_fresh_expired _ _ _ _ Hl Ht).
Qed.

Lemma resolution_then_hit_witness :
  Cached.GET
    (Cached.cache_after
       (Cached.GET ∅ (Demo.request Scenario.target) (Demo.always Scenario.good)))
    {| req_url := Some Scenario.target; req_abort_at := Some 0%N |}
    (Demo.a_minute_later (Demo.always Stalls))
  = {| Cached.outcome := Returns 0%N (Redirect 302 Scenario.image);
       Cached.calls := [];
       Cached.cache_after :=
         Cached.cache_after
           (Cached.GET ∅ (Demo.request Scenario.target) (Demo.always Scenario.good)) |}.
Proof.
  refine (proj1 (resolution_then_hit ∅ (Demo.request Scenario.target)
                   {| req_url := Some Scenario.target; req_abort_at := Some 0%N |}
                   Scenario.parsed (Demo.always Scenario.good)
                   (Demo.a_minute_later (Demo.always Stalls)) 45%N Scenario.image
                   (target_accepted None) (target_accepted (Some 0%N))
                   eq_refl eq_refl) _).
  simpl. lia.
Defined.

(** ** [isAbortLikeError], exactly *)

(** [isAbortLikeError] holds of the object errors that have one of the
    eight shapes, and of nothing else: not of a falsy value, and not of an
    error that merely looks like a timeout or a reset under another name or
    code. Names and codes are compared as they are; only the two messages
    are searched without regard to letter case. *)
Theorem abort_like_exactly_when_shaped (err : Thrown) :
  isAbortLikeError err = true <-> exists e, err = Obj e /\ cancellation_shaped e.
Proof.
  destruct err as [|e].
  - split; [discriminate | intros (e & He & _); discriminate].
  - rewrite isAbortLikeError_shapes. split.
    + intros Hs. exists e. auto.
    + intros (e' & [= <-] & Hs). exact Hs.
Qed.

(** ** The page *)

Module PageFacts.
Import Page.

Lemma join_truthy (sep : string) (l : list string) :
  Forall (fun x => Str.truthy x = true) l -> l <> [] ->
  Str.truthy (join sep l) = true.
Proof.
  intros Hl Hne. destruct l as [|x l]; [contradiction|].
  apply Forall_cons in Hl as [Hx _].
  destruct x as [|c x]; [discriminate|]. destruct l; reflexivity.
Qed.

Lemma join_cons (sep x : string) (l : list string) :
  l <> [] -> join sep (x :: l) = x +:+ sep +:+ join sep l.
Proof. destruct l; [contradiction | reflexivity]. Qed.

Lemma join_app (sep : string) (a b : list string) :
  a <> [] -> b <> [] ->
  join sep (a ++ b) = join sep a +:+ sep +:+ join sep b.
Proof.
  induction a as [|x a IH]; intros Ha Hb; [contradiction|].
  destruct a as [|y a].
  - simpl app. now rewrite join_cons.
  - change ((x :: y :: a) ++ b) with (x :: ((y :: a) ++ b)).
    rewrite join_cons by discriminate.
    rewrite IH by (discriminate || assumption).
    rewrite (join_cons sep x (y :: a)) by discriminate.
    now rewrite !StrFacts.app_assoc.
Qed.

Lemma kept_truthy (parts : list Part) :
  Forall (fun x => Str.truthy x = true) (kept parts).
Proof.
  unfold kept. induction parts as [|p parts IH]; [constructor|].
  rewrite filter_cons. destruct (decide (Boolean p = true)) as [Hp|Hp]; [|exact IH].
  simpl. constructor; [|exact IH]. destruct p; try discriminate. exact Hp.
Qed.

Lemma kept_nil_iff (parts : list Part) :
  kept parts = [] <-> Forall (fun p => Boolean p = false) parts.
Proof.
  unfold kept. induction parts as [|p parts IH].
  - split; [constructor | reflexivity].
  - rewrite filter_cons. destruct (decide (Boolean p = true)) as [Hp|Hp]; simpl.
    + split; [discriminate|]. intros Hf. apply Forall_cons in Hf as [Hf _].
      congruence.
    + rewrite IH. split.
      * intros Hf. constructor; [|exact Hf]. now destruct (Boolean p).
      * intros Hf. now apply Forall_cons in Hf as [_ Hf].
Qed.

Lemma cn_truthy_iff (parts : list Part) :
  Str.truthy (cn parts) = true <-> kept parts <> [].
Proof.
  unfold cn. split.
  - intros Ht Hk. rewrite Hk in Ht. discriminate.
  - apply join_truthy, kept_truthy.
Qed.

End PageFacts.

(** [cn] drops every falsy argument together with its separator: the
    class string of two argument lists put one after the other is the two
    class strings with a single space between them, or the one that is not
    empty; and it is empty exactly when every argument is falsy. *)
Theorem cn_app (l1 l2 : list Page.Part) :
  Page.cn (l1 ++ l2)
  = (if Str.truthy (Page.cn l1)
     then if Str.truthy (Page.cn l2)
          then Page.cn l1 +:+ " " +:+ Page.cn l2
          else Page.cn l1
     else Page.cn l2) /\
  (Page.cn l1 = EmptyString <-> Forall (fun p => Page.Boolean p = false) l1).
Proof.
  split.
  - assert (Hk : Page.kept (l1 ++ l2) = Page.kept l1 ++ Page.kept l2).
    { unfold Page.kept. now rewrite filter_app, map_app. }
    destruct (Str.truthy (Page.cn l1)) eqn:H1; destruct (Str.truthy (Page.cn l2)) eqn:H2.
    + apply PageFacts.cn_truthy_iff in H1, H2.
      unfold Page.cn.
      rewrite Hk. now apply PageFacts.join_app.
    + assert (H2' : Page.kept l2 = []).
      { destruct (Page.kept l2) eqn:E; [reflexivity|].
        assert (Str.truthy (Page.cn l2) = true)
          by (apply PageFacts.cn_truthy_iff; rewrite E; discriminate).
        congruence. }
      unfold Page.cn.
      now rewrite Hk, H2', app_nil_r.
    + assert (H1' : Page.kept l1 = []).
      { destruct (Page.kept l1) eqn:E; [reflexivity|].
        assert (Str.truthy (Page.cn l1) = true)
          by (apply PageFacts.cn_truthy_iff; rewrite E; discriminate).
        congruence. }
      unfold Page.cn.
      now rewrite Hk, H1'.
    + assert (H1' : Page.kept l1 = []).
      { destruct (Page.kept l1) eqn:E; [reflexivity|].
        assert (Str.truthy (Page.cn l1) = true)
          by (apply PageFacts.cn_truthy_iff; rewrite E; discriminate).
        congruence. }
      unfold Page.cn.
      now rewrite Hk, H1'.
  - rewrite <- PageFacts.kept_nil_iff. split.
    + intros He. destruct (Page.kept l1) eqn:E; [reflexivity|].
      assert (Str.truthy (Page.cn l1) = true)
        by (apply PageFacts.cn_truthy_iff; rewrite E; discriminate).
      rewrite He in H. discriminate.
    + intros Hk. unfold Page.cn. now rewrite Hk.
Qed.

Section DescriptionFacts.
Context {C : Type} (white : C -> bool) (ellipsis : C).

Lemma trimStart_skipn (l : list C) :
  exists k, Page.trimStart white l = skipn k l.
Proof.
  induction l as [|c l [k IH]]; [now exists 0|]. simpl.
  destruct (white c); [exists (S k); exact IH | now exists 0].
Qed.

Lemma trimStart_head (l : list C) (c : C) (rest : list C) :
  Page.trimStart white l = c :: rest -> white c = false.
Proof.
  induction l as [|x l IH]; simpl; [discriminate|].
  destruct (white x) eqn:Hx; [exact IH | now intros [= <- _]].
Qed.

Lemma trimEnd_firstn (l : list C) :
  exists n, Page.trimEnd white l = firstn n l.
Proof.
  unfold Page.trimEnd. destruct (trimStart_skipn (rev l)) as [k ->].
  rewrite skipn_rev, rev_involutive. eauto.
Qed.

Lemma trimEnd_last (l pre : list C) (c : C) :
  Page.trimEnd white l = pre ++ [c] -> white c = false.
Proof.
  unfold Page.trimEnd. intros He.
  apply (f_equal (@rev C)) in He. rewrite rev_involutive, rev_app_distr in He.
  exact (trimStart_head _ _ _ He).
Qed.

Lemma trim_segment (l : list C) :
  exists k n, Page.trim white l = firstn n (skipn k l).
Proof.
  unfold Page.trim. destruct (trimStart_skipn l) as [k ->].
  destruct (trimEnd_firstn (skipn k l)) as [n ->]. eauto.
Qed.

Lemma trim_head (l : list C) (c : C) (rest : list C) :
  Page.trim white l = c :: rest -> white c = false.
Proof.
  unfold Page.trim. destruct (trimEnd_firstn (Page.trimStart white l)) as [n ->].
  destruct (Page.trimStart white l) as [|x y] eqn:E.
  - rewrite firstn_nil. discriminate.
  - destruct n; simpl; [discriminate|]. intros [= <- _].
    exact (trimStart_head _ _ _ E).
Qed.

End DescriptionFacts.

(** The collapsed text of a project card. A description of at most 240
    units is shown whole. A longer one is cut: what is shown is a run of
    consecutive units taken from its first 240, followed by the ellipsis, so
    never more than 241 units; and the run neither starts nor ends with
    white space. *)
Theorem short_description {C : Type} (white : C -> bool) (ellipsis : C)
    (description : list C) :
  length (Page.short white ellipsis description) <= 241 /\
  (length description <= 240 ->
   Page.short white ellipsis description = description) /\
  (240 < length description ->
   exists k n,
     k + n <= 240 /\
     Page.short white ellipsis description
     = firstn n (skipn k description) ++ [ellipsis] /\
     (forall c rest, firstn n (skipn k description) = c :: rest -> white c = false) /\
     (forall pre c, firstn n (skipn k description) = pre ++ [c] -> white c = false)).
Proof.
  unfold Page.short.
  destruct (Nat.ltb_spec 240 (length description)) as [Hlong | Hshort].
  - destruct (trim_segment white (firstn 240 description)) as (k & n & Ht).
    assert (Hseg : Page.trim white (firstn 240 description)
                   = firstn (Nat.min n (240 - k)) (skipn k description)).
    { now rewrite Ht, skipn_firstn_comm, firstn_firstn. }
    split; [|split; [lia|]].
    + rewrite length_app, Hseg. simpl.
      pose proof (firstn_le_length (Nat.min n (240 - k)) (skipn k description)).
      lia.
    + intros _. destruct (Nat.le_gt_cases k 240) as [Hk | Hk].
      * exists k, (Nat.min n (240 - k)). split; [lia|]. rewrite <- Hseg.
        split; [reflexivity|]. split.
        -- intros c rest. apply trim_head.
        -- intros pre c. unfold Page.trim. apply trimEnd_last.
      * exists 0, 0. split; [lia|].
        assert (Hnil : Page.trim white (firstn 240 description) = []).
        { rewrite Hseg. replace (240 - k) with 0 by lia.
          now rewrite Nat.min_0_r. }
        rewrite Hnil. simpl. split; [reflexivity|].
        split; [discriminate|]. intros [|x pre] c; discriminate.
  - split; [lia|]. split; [reflexivity | lia].
Qed.

Lemma short_description_witness :
  exists k n,
    k + n <= 240 /\
    Page.short (fun c : N => (c =? 32)%N) 8230%N (repeat 97%N 250)
    = firstn n (skipn k (repeat 97%N 250)) ++ [8230%N].
Proof.
  destruct (proj2 (proj2 (short_description (fun c : N => (c =? 32)%N) 8230%N
                            (repeat 97%N 250))))
    as (k & n & Hk & Hs & _).
  - rewrite repeat_length. lia.
  - exists k, n. split; assumption.
Defined.

(** Read more, read less. Clicking the button of card [idx] flips what
    that card shows and leaves every other card as it is; a second click
    brings the card back, also when it had never been clicked before. *)
Theorem toggle_expanded (idx j : nat) (prev : gmap nat bool) :
  Page.expanded (Page.toggle idx prev) idx = negb (Page.expanded prev idx) /\
  (j <> idx -> Page.expanded (Page.toggle idx prev) j = Page.expanded prev j) /\
  Page.expanded (Page.toggle idx (Page.toggle idx prev)) j = Page.expanded prev j.
Proof.
  unfold Page.expanded, Page.toggle. split; [|split].
  - now rewrite lookup_insert_eq.
  - intros Hne. now rewrite lookup_insert_ne by congruence.
  - destruct (decide (j = idx)) as [-> | Hne].
    + rewrite !lookup_insert_eq. simpl. apply negb_involutive.
    + now rewrite !lookup_insert_ne by congruence.
Qed.

Lemma toggle_expanded_witness :
  Page.expanded (Page.toggle 2 ∅) 0 = false.
Proof.
  refine (proj1 (proj2 (toggle_expanded 2 0 ∅)) _). discriminate.
Defined.

(** The rotating role. After any number of ticks of the interval the index
    is that number modulo five, so the span always has a role to show and
    the five roles come round in order. *)
Theorem role_rotation (ticks : nat) :
  Nat.iter ticks Page.next_role 0 = ticks mod 5 /\
  exists role, Page.roles !! Nat.iter ticks Page.next_role 0 = Some role.
Proof.
  assert (Hi : Nat.iter ticks Page.next_role 0 = ticks mod 5).
  { induction ticks as [|n IH]; [reflexivity|].
    simpl. rewrite IH. unfold Page.next_role.
    change (length Page.roles) with 5.
    rewrite Nat.Div0.add_mod_idemp_l. now replace (n + 1) with (S n) by lia. }
  split; [exact Hi|]. rewrite Hi.
  apply lookup_lt_is_Some_2. change (length Page.roles) with 5.
  apply Nat.mod_upper_bound. discriminate.
Qed.

(** ** [extractOgImage], exactly *)

Module ExactFacts.
Import StrFacts ReFacts ExtractFacts.

Lemma all_app (p : ascii -> bool) (a b : string) :
  Str.all p (a +:+ b) = Str.all p a && Str.all p b.
Proof.
  induction a as [|x a IH]; simpl; [reflexivity|].
  now rewrite IH, andb_assoc.
Qed.

(** The repetition fails when the continuation rejects every split. *)
Lemma greedy_none (p : ascii -> bool) (k : string -> Re.K) :
  forall s taken,
    (forall d rest, s = d +:+ rest -> Str.all p d = true ->
                    k (taken +:+ d) rest = None) ->
    Re.greedy p k taken s = None.
Proof.
  induction s as [|c s IH]; intros taken Hk.
  - simpl. specialize (Hk EmptyString EmptyString eq_refl eq_refl).
    now rewrite app_nil_r in Hk.
  - assert (H0 : k taken (String c s) = None).
    { specialize (Hk EmptyString (String c s) eq_refl eq_refl).
      now rewrite app_nil_r in Hk. }
    simpl. destruct (p c) eqn:Hp; [|exact H0].
    rewrite IH; [exact H0|].
    intros d rest -> Hd. rewrite app_assoc.
    apply (Hk (String c d) rest); [reflexivity|]. simpl. now rewrite Hp.
Qed.

(** The split the repetition settles on is the longest one the continuation
    accepts. *)
Lemma greedy_last (p : ascii -> bool) (k : string -> Re.K) :
  forall a taken rest r,
    Str.all p a = true -> k (taken +:+ a) rest = Some r ->
    (forall d rest2, rest = d +:+ rest2 -> d <> EmptyString ->
                     Str.all p (a +:+ d) = true ->
                     k (taken +:+ (a +:+ d)) rest2 = None) ->
    Re.greedy p k taken (a +:+ rest) = Some r.
Proof.
  induction a as [|x a IH]; intros taken rest r Ha Hk Hlater.
  - rewrite app_nil_r in Hk. simpl.
    destruct rest as [|c s]; simpl; [exact Hk|].
    destruct (p c) eqn:Hp; [|exact Hk].
    rewrite greedy_none; [exact Hk|].
    intros d rest2 -> Hd. rewrite app_assoc.
    apply (Hlater (String c d) rest2); [reflexivity | discriminate|].
    simpl. now rewrite Hp.
  - simpl in Ha. apply andb_true_iff in Ha as [Hp Ha]. simpl. rewrite Hp.
    rewrite (IH (taken +:+ String x EmptyString) rest r Ha).
    + reflexivity.
    + now rewrite app_assoc.
    + intros d rest2 Hr Hd Hall. rewrite app_assoc.
      apply (Hlater d rest2 Hr Hd). simpl. now rewrite Hp.
Qed.

(** A run that ends at a character outside the class is taken whole when
    the continuation rejects every shorter split. *)
Lemma greedy_run (p : ascii -> bool) (k : string -> Re.K) :
  forall a taken c rest,
    Str.all p a = true -> p c = false ->
    (forall a1 b, a = a1 +:+ b -> b <> EmptyString ->
                  k (taken +:+ a1) (b +:+ String c rest) = None) ->
    Re.greedy p k taken (a +:+ String c rest) = k (taken +:+ a) (String c rest).
Proof.
  induction a as [|x a IH]; intros taken c rest Ha Hc Hshort.
  - simpl. now rewrite Hc, app_nil_r.
  - simpl in Ha. apply andb_true_iff in Ha as [Hp Ha]. simpl. rewrite Hp.
    rewrite (IH (taken +:+ String x EmptyString) c rest Ha Hc).
    + rewrite app_assoc. simpl.
      destruct (k (taken +:+ String x a) (String c rest)) eqn:E; [reflexivity|].
      specialize (Hshort EmptyString (String x a) eq_refl).
      rewrite app_nil_r in Hshort. apply Hshort. discriminate.
    + intros a1 b -> Hb. rewrite app_assoc.
      apply (Hshort (String x a1) b); [reflexivity | exact Hb].
Qed.

(** The content attribute is read in one way only: the value runs up to
    the next quote. *)
Lemma content_attr_exact (k : string -> Re.K) (X s rest : string) :
  attribute "content=" X s rest -> plain_value X ->
  Re.content_attr k s = k X rest.
Proof.
  intros [n q1 q2 rest' Hn Hq1 Hq2] [HX Ht].
  unfold Re.content_attr, Re.plus_not_quote.
  rewrite lit_ci_complete, quote_complete by assumption.
  rewrite greedy_run.
  - change (EmptyString +:+ X) with X. rewrite Ht.
    now rewrite quote_complete.
  - exact HX.
  - unfold Str.not_quote. now rewrite Hq2.
  - intros a1 [|y b] -> Hb; [contradiction|].
    rewrite all_app in HX. apply andb_true_iff in HX as [_ HX].
    simpl in HX. apply andb_true_iff in HX as [Hy _].
    destruct (Str.truthy (EmptyString +:+ a1)); [|reflexivity].
    simpl. unfold Str.not_quote in Hy.
    destruct (Str.is_quote y); [discriminate Hy | reflexivity].
Qed.

Lemma search_leftmost (m : string -> option string) :
  forall pre s r,
    m s = Some r ->
    (forall pre1 d, pre = pre1 +:+ d -> d <> EmptyString -> m (d +:+ s) = None) ->
    Re.search m (pre +:+ s) = Some r.
Proof.
  induction pre as [|c pre IH]; intros s r Hm Hbefore.
  - simpl. destruct s; simpl; now rewrite Hm.
  - assert (H0 : m (String c pre +:+ s) = None)
      by (apply (Hbefore EmptyString (String c pre) eq_refl); discriminate).
    simpl in *. rewrite H0.
    apply IH; [exact Hm|].
    intros pre1 d -> Hd. apply (Hbefore (String c pre1) d); [reflexivity | exact Hd].
Qed.

Lemma search_none (m : string -> option string) :
  forall s,
    (forall pre s', s = pre +:+ s' -> m s' = None) -> Re.search m s = None.
Proof.
  induction s as [|c s IH]; intros Hm; simpl.
  - now rewrite (Hm EmptyString EmptyString eq_refl).
  - rewrite (Hm EmptyString (String c s) eq_refl).
    apply IH. intros pre s' ->. apply (Hm (String c pre) s'). reflexivity.
Qed.

(** The property-first expression at a start where the property attribute
    is followed, inside the tag, by a last content attribute. *)
Lemma property_first_last (s o mid r post X : string) :
  attribute "property=" o s (mid +:+ r) -> Str.eq_ci o "og:image" = true ->
  Str.all Str.not_gt mid = true ->
  attribute "content=" X r post -> plain_value X ->
  (forall d r2 Y post2,
     r = d +:+ r2 -> d <> EmptyString ->
     Str.all Str.not_gt (mid +:+ d) = true ->
     attribute "content=" Y r2 post2 -> plain_value Y -> False) ->
  Re.property_first s = Some X.
Proof.
  intros Hp Ho Hmid Hc HX Hlast.
  unfold Re.property_first. rewrite (property_attr_complete _ _ _ _ Hp Ho).
  unfold Re.star_not_gt. apply greedy_last.
  - exact Hmid.
  - now rewrite (content_attr_exact _ _ _ _ Hc HX).
  - intros d r2 Hr Hd Hall.
    destruct (Re.content_attr (fun cap _ => Some cap) r2) as [Y|] eqn:E;
      [|reflexivity].
    apply content_attr_sound in E as (Y' & post2 & Ha & HY & _).
    destruct (Hlast d r2 Y' post2 Hr Hd Hall Ha HY).
Qed.

(** The content-first expression reads the content attribute it starts at. *)
Lemma content_first_exact (s X : string) :
  content_then_property X s -> Re.content_first s = Some X.
Proof.
  intros Hocc. destruct (content_first_complete _ _ Hocc) as [X' E].
  rewrite E. f_equal.
  destruct Hocc as (o & mid & r & post & Hc & HX & _).
  unfold Re.content_first in E. rewrite (content_attr_exact _ _ _ _ Hc HX) in E.
  apply star_sound in E as (mid' & r' & _ & _ & E).
  now apply property_attr_sound in E as (o' & post' & _ & _ & [= ->]).
Qed.

(** What the checks by evaluation establish. *)
Lemma all_suffixes_spec (f : string -> bool) :
  forall pre s, all_suffixes f (pre +:+ s) = true -> f s = true.
Proof.
  induction pre as [|c pre IH]; intros s Hall.
  - simpl in Hall. destruct s; simpl in Hall;
      now apply andb_true_iff in Hall as [Hf _].
  - simpl in Hall. apply andb_true_iff in Hall as [_ Hall]. now apply IH.
Qed.

Lemma all_before_spec (f : string -> bool) (s : string) :
  forall pre1 d,
    all_before f (pre1 +:+ d) s = true -> d <> EmptyString -> f (d +:+ s) = true.
Proof.
  induction pre1 as [|c pre1 IH]; intros d Hall Hd.
  - simpl in Hall. destruct d as [|y d]; [contradiction|].
    simpl in Hall. now apply andb_true_iff in Hall as [Hf _].
  - simpl in Hall. apply andb_true_iff in Hall as [_ Hall]. now apply IH.
Qed.

Lemma no_match_none (m : string -> option string) (s : string) :
  no_match m s = true -> m s = None.
Proof. unfold no_match. now destruct (m s). Qed.

Lemma no_property_first_before (pre s : string) :
  all_before (no_match Re.property_first) pre s = true ->
  forall pre1 d Y,
    pre = pre1 +:+ d -> d <> EmptyString -> ~ property_then_content Y (d +:+ s).
Proof.
  intros Hall pre1 d Y -> Hd Hocc.
  destruct (property_first_complete _ _ Hocc) as [X' E].
  now rewrite (no_match_none _ _ (all_before_spec _ _ _ _ Hall Hd)) in E.
Qed.

Lemma no_content_first_before (pre s : string) :
  all_before (no_match Re.content_first) pre s = true ->
  forall pre1 d Y,
    pre = pre1 +:+ d -> d <> EmptyString -> ~ content_then_property Y (d +:+ s).
Proof.
  intros Hall pre1 d Y -> Hd Hocc.
  destruct (content_first_complete _ _ Hocc) as [X' E].
  now rewrite (no_match_none _ _ (all_before_spec _ _ _ _ Hall Hd)) in E.
Qed.

Lemma no_property_first_anywhere (html : string) :
  all_suffixes (no_match Re.property_first) html = true ->
  forall pre s Y, html = pre +:+ s -> ~ property_then_content Y s.
Proof.
  intros Hall pre s Y -> Hocc.
  destruct (property_first_complete _ _ Hocc) as [X' E].
  now rewrite (no_match_none _ _ (all_suffixes_spec _ _ _ Hall)) in E.
Qed.

Lemma no_content_attr_later (c : ascii) (r1 : string) :
  all_suffixes (no_match (Re.content_attr (fun cap _ => Some cap))) r1 = true ->
  forall d r2 Y post2,
    String c r1 = d +:+ r2 -> d <> EmptyString ->
    attribute "content=" Y r2 post2 -> plain_value Y -> False.
Proof.
  intros Hall [|y d] r2 Y post2 Hr Hd Ha HY; [contradiction|].
  simpl in Hr. injection Hr as _ ->.
  pose proof (no_match_none _ _ (all_suffixes_spec _ _ _ Hall)) as E.
  now rewrite (content_attr_exact _ _ _ _ Ha HY) in E.
Qed.

End ExactFacts.

(** The first expression decides whenever it matches, wherever the second
    one would: of the places where the property attribute is followed,
    before the next [>], by a content attribute, the leftmost is taken, and
    of the content attributes that follow it there, the last. *)
Theorem extractOgImage_property_first (pre s o mid r post X : string) :
  attribute "property=" o s (mid +:+ r) -> Str.eq_ci o "og:image" = true ->
  Str.all Str.not_gt mid = true ->
  attribute "content=" X r post -> plain_value X ->
  (forall pre1 d Y,
     pre = pre1 +:+ d -> d <> EmptyString -> ~ property_then_content Y (d +:+ s)) ->
  (forall d r2 Y post2,
     r = d +:+ r2 -> d <> EmptyString ->
     Str.all Str.not_gt (mid +:+ d) = true ->
     attribute "content=" Y r2 post2 -> plain_value Y -> False) ->
  extractOgImage (pre +:+ s) = Some X.
Proof.
  intros Hp Ho Hmid Hc HX Hleft Hlast.
  pose proof (ExactFacts.property_first_last _ _ _ _ _ _ Hp Ho Hmid Hc HX Hlast)
    as Hs.
  unfold extractOgImage. rewrite (ExactFacts.search_leftmost _ pre s X Hs).
  - reflexivity.
  - intros pre1 d Hpre Hd.
    destruct (Re.property_first (d +:+ s)) as [Y|] eqn:E; [|reflexivity].
    apply ExtractFacts.property_first_sound in E.
    destruct (Hleft pre1 d Y Hpre Hd E).
Qed.

Lemma extractOgImage_property_first_witness :
  extractOgImage Scenario.both_orders = Some "second" /\
  extractOgImage Scenario.two_contents = Some "z".
Proof.
  split.
  - refine (extractOgImage_property_first
              "<meta content='first' property='og:image'><meta "
              "property='og:image' content='second'>"
              "og:image" " " "content='second'>" ">" "second"
              (attribute_at "property=" "og:image" "property=" "'"%char "'"%char _
                 eq_refl eq_refl eq_refl)
              eq_refl eq_refl
              (attribute_at "content=" "second" "content=" "'"%char "'"%char _
                 eq_refl eq_refl eq_refl)
              (conj eq_refl eq_refl) _ _).
    + apply ExactFacts.no_property_first_before. reflexivity.
    + intros d r2 Y post2 Hr Hd _.
      refine (ExactFacts.no_content_attr_later "c"%char "ontent='second'>" _
                d r2 Y post2 Hr Hd).
      reflexivity.
  - refine (extractOgImage_property_first
              "<meta "
              "property='og:image' content='https://i.postimg.cc/a.jpg' data-content='z'>"
              "og:image" " content='https://i.postimg.cc/a.jpg' data-"
              "content='z'>" ">" "z"
              (attribute_at "property=" "og:image" "property=" "'"%char "'"%char _
                 eq_refl eq_refl eq_refl)
              eq_refl eq_refl
              (attribute_at "content=" "z" "content=" "'"%char "'"%char _
                 eq_refl eq_refl eq_refl)
              (conj eq_refl eq_refl) _ _).
    + apply ExactFacts.no_property_first_before. reflexivity.
    + intros d r2 Y post2 Hr Hd _.
      refine (ExactFacts.no_content_attr_later "c"%char "ontent='z'>" _
                d r2 Y post2 Hr Hd).
      reflexivity.
Defined.

(** The second expression is used only on a page where the first matches
    nowhere, and then the content attribute of its leftmost match is the
    result. *)
Theorem extractOgImage_content_first (pre s X : string) :
  content_then_property X s ->
  (forall pre' s' Y, pre +:+ s = pre' +:+ s' -> ~ property_then_content Y s') ->
  (forall pre1 d Y,
     pre = pre1 +:+ d -> d <> EmptyString -> ~ content_then_property Y (d +:+ s)) ->
  extractOgImage (pre +:+ s) = Some X.
Proof.
  intros Hocc Hnone Hleft.
  unfold extractOgImage. rewrite ExactFacts.search_none.
  - apply ExactFacts.search_leftmost.
    + now apply ExactFacts.content_first_exact.
    + intros pre1 d Hpre Hd.
      destruct (Re.content_first (d +:+ s)) as [Y|] eqn:E; [|reflexivity].
      apply ExtractFacts.content_first_sound in E.
      destruct (Hleft pre1 d Y Hpre Hd E).
  - intros pre' s' Hsplit.
    destruct (Re.property_first s') as [Y|] eqn:E; [|reflexivity].
    apply ExtractFacts.property_first_sound in E.
    destruct (Hnone pre' s' Y Hsplit E).
Qed.

Lemma extractOgImage_content_first_witness :
  extractOgImage
    "<meta content='one' property='og:image'><META CONTENT='two' PROPERTY='OG:IMAGE'>"
  = Some "one".
Proof.
  refine (extractOgImage_content_first
            "<meta "
            "content='one' property='og:image'><META CONTENT='two' PROPERTY='OG:IMAGE'>"
            "one" _ _ _).
  - exists "og:image", " ",
      "property='og:image'><META CONTENT='two' PROPERTY='OG:IMAGE'>",
      "><META CONTENT='two' PROPERTY='OG:IMAGE'>".
    split; [|split; [split; reflexivity | split; [reflexivity | split]]].
    + exact (attribute_at "content=" "one" "content=" "'"%char "'"%char _
               eq_refl eq_refl eq_refl).
    + exact (attribute_at "property=" "og:image" "property=" "'"%char "'"%char _
               eq_refl eq_refl eq_refl).
    + reflexivity.
  - apply ExactFacts.no_property_first_anywhere. reflexivity.
  - apply ExactFacts.no_content_first_before. reflexivity.
Defined.

